(** * py_api_saga: the saga assembler of [py_api_saga.py]

    A shallow embedding of the class [SagaAssembler] and the properties
    of its two runners.

    Python values that reach the assembler are modelled by [pyval].
    User callables are opaque: their behaviour is given by an environment
    [call], a function of the pre-bound arguments, of the accumulator
    [saga_results] the retry executor exposes to them, and of a world
    state [W] that stands for every side effect they have.  A callable
    either returns a value or raises an [Exception]; exceptions outside
    the [Exception] hierarchy (KeyboardInterrupt, SystemExit) are not
    modelled, and callables read the accumulator without mutating it.

    Every invocation of a registered callable is recorded in a log of
    [event]s, so that statements about which callable runs, how often and
    in which order are statements about that log. *)

From Stdlib Require Import ZArith String List Lia Sorted.
From Stdlib Require Import Floats.SpecFloat.
From stdpp Require Import base option list sets.

Local Open Scope string_scope.
Local Open Scope list_scope.
#[local] Set Warnings "-register-all".

(** ** Values *)

(** A [def] or [lambda] object: its [__name__] and an identity that
    selects its body in the environment. *)
Record function := Function { fn_name : string; fn_code : nat }.

Inductive pyval :=
| VNone
| VBool (b : bool)
| VInt (z : Z)
| VFloat (f : spec_float)
| VStr (s : string)
| VFunction (f : function)      (* an instance of types.FunctionType *)
| VCallable (name : string)     (* callable, but no FunctionType: a builtin,
                                   a bound method, a class, a partial *)
| VSeq (items : list pyval).    (* a list or a tuple *)

(** Python exceptions below [Exception]: class name and [str()]. *)
Inductive exn := Exn (cls : string) (msg : string).

Definition str (e : exn) : string := match e with Exn _ m => m end.

(** [bool(v)] *)
Definition truthy (v : pyval) : bool :=
  match v with
  | VNone => false
  | VBool b => b
  | VInt z => negb (z =? 0)%Z
  | VFloat f => match f with S754_zero _ => false | _ => true end
  | VStr s => negb (Nat.eqb (String.length s) 0)
  | VFunction _ | VCallable _ => true
  | VSeq items => negb (Nat.eqb (length items) 0)
  end.

(** [callable(v)] *)
Definition callable (v : pyval) : bool :=
  match v with VFunction _ | VCallable _ => true | _ => false end.

(** [isinstance(v, int) or isinstance(v, float)]; [bool] is a subclass
    of [int]. *)
Definition is_int_or_float (v : pyval) : bool :=
  match v with VBool _ | VInt _ | VFloat _ => true | _ => false end.

(** [hasattr(v, "__iter__")] *)
Definition has_iter (v : pyval) : bool :=
  match v with VStr _ | VSeq _ => true | _ => false end.

(** [type(v).__name__] *)
Definition type_name (v : pyval) : string :=
  match v with
  | VNone => "NoneType" | VBool _ => "bool" | VInt _ => "int"
  | VFloat _ => "float" | VStr _ => "str" | VFunction _ => "function"
  | VCallable _ => "builtin_function_or_method" | VSeq _ => "list"
  end.

(** ** The assembler and its exceptions *)

(** [functools.partial(f, *args)] *)
Record partial := Partial { func : function; args : list pyval }.

(** An entry of [__operations]: the tuple built by [operation], which
    holds one partial (the action) or two (action, compensation). *)
Inductive op :=
| Op1 (action : partial)
| Op2 (action compensation : partial).

(** [len(t)], [t[0]] and [t[-1]] on such a tuple. *)
Definition op_len (t : op) : nat :=
  match t with Op1 _ => 1 | Op2 _ _ => 2 end.
Definition op_first (t : op) : partial :=
  match t with Op1 a => a | Op2 a _ => a end.
Definition op_last (t : op) : partial :=
  match t with Op1 a => a | Op2 _ c => c end.

(** First positional argument of [SagaException]: a message, or the
    exception caught from an action. *)
Inductive op_error := ErrMsg (m : string) | ErrExn (e : exn).

Record SagaException := mkSagaException {
  operation_error : op_error;
  operation_name : option string;
  compensation_success_result : option (list pyval);
  compensation_errors : option (list string)
}.

(** What leaves a method by [raise]. *)
Inductive raised := RaiseSaga (e : SagaException) | RaiseExn (e : exn).

Definition saga_error (m : string) : raised :=
  RaiseSaga (mkSagaException (ErrMsg m) None None None).

Record SagaAssembler := mkSaga {
  __retry_attempts : pyval;
  __operations : list op;
  __saga_results : list pyval
}.

(** [SagaAssembler.__init__]; an omitted argument is [None]. *)
Definition __init__ (retry_attempts : pyval) : raised + SagaAssembler :=
  if truthy retry_attempts && negb (is_int_or_float retry_attempts)
  then inl (saga_error ("`retry_attempts` cannot be <class '"
                        ++ type_name retry_attempts
                        ++ "'> type. Integer type is required.")%string)
  else inr (mkSaga (if truthy retry_attempts then retry_attempts else VInt 1)
                   [] []).

Definition saga (retry_attempts : pyval) : raised + SagaAssembler :=
  __init__ retry_attempts.

(** [arg[0]] on a value that has [__iter__]: the first item of a
    sequence, the first character of a string, or IndexError. *)
Definition first_item (arg : pyval) : exn + pyval :=
  match arg with
  | VSeq (x :: _) => inr x
  | VSeq [] => inl (Exn "IndexError" "list index out of range")
  | VStr (String c _) => inr (VStr (String c EmptyString))
  | VStr EmptyString => inl (Exn "IndexError" "string index out of range")
  | _ => inl (Exn "TypeError" "object is not subscriptable")
  end.

(** [partial] applied to the unpacked [items], the first of which is a
    function. *)
Definition partial_of (f : function) (arg : pyval) : partial :=
  match arg with
  | VSeq (_ :: rest) => Partial f rest
  | _ => Partial f []
  end.

(** [__check_operation] *)
Definition __check_operation (arg : pyval) : raised + partial :=
  let reject := saga_error "Please add function in operation argument." in
  if has_iter arg then
    match first_item arg with
    | inl e => inl (RaiseExn e)
    | inr (VFunction f) => inr (partial_of f arg)
    | inr _ => inl reject
    end
  else
    match arg with
    | VFunction f => inr (Partial f [])
    | _ => inl reject
    end.

(** [operation]: the result, and the assembler afterwards.  The list
    comprehension checks the arguments from left to right and stops at
    the first raise; the tuple is appended only when it is complete. *)
Definition operation (self : SagaAssembler) (args : list pyval)
  : (raised + unit) * SagaAssembler :=
  let append t :=
    mkSaga (__retry_attempts self) (__operations self ++ [t])
           (__saga_results self) in
  match args with
  | [] => (inl (saga_error "Operation can not be empty"), self)
  | [arg] =>
      match __check_operation arg with
      | inl e => (inl e, self)
      | inr a => (inr (), append (Op1 a))
      end
  | [arg1; arg2] =>
      match __check_operation arg1 with
      | inl e => (inl e, self)
      | inr a =>
          match __check_operation arg2 with
          | inl e => (inl e, self)
          | inr c => (inr (), append (Op2 a c))
          end
      end
  | _ =>
      (inl (saga_error "Only two operations (action, compensation) are allowed."),
       self)
  end.

Definition __check_available_operations (self : SagaAssembler) : raised + unit :=
  match __operations self with
  | [] => inl (saga_error "Set operation first to execute the saga.")
  | _ => inr ()
  end.

(** ** Running callables *)

(** One invocation of a registered callable: the index of its operation,
    its position in the operation's tuple (0 the action, 1 the
    compensation) and how it ended. *)
Record event := Call {
  ev_index : nat;
  ev_pos : nat;
  ev_result : exn + pyval
}.

Definition ev_key (e : event) : nat * nat := (ev_index e, ev_pos e).

Definition is_ok {A B} (r : A + B) : bool :=
  match r with inr _ => true | inl _ => false end.

(** [l or None] *)
Definition or_None {A} (l : list A) : option (list A) :=
  match l with [] => None | _ => Some l end.

(** [range(n)] for the retry loop: the number of iterations, or the
    TypeError of a value that is no integer. *)
Definition range_len (n : pyval) : exn + nat :=
  match n with
  | VInt z => inr (Z.to_nat z)
  | VBool b => inr (if b then 1 else 0)%nat
  | _ => inl (Exn "TypeError"
                  ("'" ++ type_name n
                       ++ "' object cannot be interpreted as an integer")%string)
  end.

(** [raise error]: raising [None] is itself a TypeError. *)
Definition raise_ (error : option exn) : exn :=
  match error with
  | Some e => e
  | None => Exn "TypeError" "exceptions must derive from BaseException"
  end.

Section Execution.

(** The state of everything outside the assembler. *)
Variable W : Type.

(** The body of a function: pre-bound arguments, the accumulator it can
    read through its [saga_results] attribute, the world before; the
    value returned or the exception raised, and the world after. *)
Variable call : function -> list pyval -> list pyval -> W -> (exn + pyval) * W.

(** What a run threads through: [self.__saga_results], the world and
    the log of invocations. *)
Record exec := Exec {
  acc : list pyval;
  world : W;
  log : list event
}.

(** Calling the partial at position [pos] of operation [i]. *)
Definition invoke (i pos : nat) (p : partial) (s : exec)
  : (exn + pyval) * exec :=
  let '(r, w) := call (func p) (args p) (acc s) (world s) in
  (r, Exec (acc s) w (log s ++ [Call i pos r])).

(** [self.__saga_results.append(response)] *)
Definition append_result (response : pyval) (s : exec) : exec :=
  Exec (acc s ++ [response]) (world s) (log s).

(** The [for ... else] of [__retry_operation] with [n] iterations left:
    [func] is the action of operation [i]. *)
Fixpoint retry_loop (n : nat) (error : option exn) (i : nat)
         (func : partial) (s : exec) : (exn + pyval) * exec :=
  match n with
  | O => (inl (raise_ error), s)
  | S n' =>
      let '(r, s1) := invoke i 0 func s in
      match r with
      | inr response => (inr response, append_result response s1)
      | inl err => retry_loop n' (Some err) i func s1
      end
  end.

Definition __retry_operation (self : SagaAssembler) (i : nat)
           (func : partial) (s : exec) : (exn + pyval) * exec :=
  match range_len (__retry_attempts self) with
  | inl e => (inl e, s)
  | inr n => retry_loop n None i func s
  end.

(** *** Orchestrator *)

(** The loop of [__execute_orchestrator_compensation] over the indices
    still to visit.  A raise inside the [try], also the IndexError of a
    lookup out of range, is caught and its [str] collected. *)
Fixpoint sweep (self : SagaAssembler) (indices : list nat)
         (compensation_success_result : list pyval)
         (compensation_exceptions : list string) (s : exec)
  : list pyval * list string * exec :=
  match indices with
  | [] => (compensation_success_result, compensation_exceptions, s)
  | compensation_index :: rest =>
      match __operations self !! compensation_index with
      | None =>
          sweep self rest compensation_success_result
                (compensation_exceptions ++ ["list index out of range"]) s
      | Some t =>
          if negb (Nat.eqb (op_len t) 0) then
            let '(r, s1) :=
              invoke compensation_index (op_len t - 1) (op_last t) s in
            match r with
            | inr v =>
                sweep self rest (compensation_success_result ++ [v])
                      compensation_exceptions s1
            | inl compensation_error =>
                sweep self rest compensation_success_result
                      (compensation_exceptions ++ [str compensation_error]) s1
            end
          else
            sweep self rest compensation_success_result
                  compensation_exceptions s
      end
  end.

(** [range(last_operation_index - 1, -1, -1)] *)
Definition down_from (last_operation_index : nat) : list nat :=
  rev (seq 0 last_operation_index).

Definition __execute_orchestrator_compensation (self : SagaAssembler)
           (last_operation_index : nat) (s : exec)
  : (option (list pyval) * option (list string)) * exec :=
  let '(ok, errs, s') := sweep self (down_from last_operation_index) [] [] s in
  ((or_None ok, or_None errs), s').

(** Where the loop of [orchestrator_execute] stopped: the index and
    tuple of the operation whose action raised, and the exception. *)
Record failure := Failure {
  failed_at : nat;
  failed_op : op;
  failed_with : exn
}.

(** The [try] body of the loop of [orchestrator_execute], over the
    operations from [operation_index] on: it runs until the retry
    executor raises. *)
Fixpoint orchestrator_loop (self : SagaAssembler) (ops : list op)
         (operation_index : nat) (response : list pyval) (s : exec)
  : (failure + list pyval) * exec :=
  match ops with
  | [] => (inr response, s)
  | t :: rest =>
      let '(r, s1) := __retry_operation self operation_index (op_first t) s in
      match r with
      | inr v =>
          orchestrator_loop self rest (S operation_index) (response ++ [v]) s1
      | inl operation_error =>
          (inl (Failure operation_index t operation_error), s1)
      end
  end.

(** The [except] clause of that loop: it always leaves by [raise]. *)
Definition orchestrator_handler (self : SagaAssembler) (f : failure)
           (s : exec) : SagaException * exec :=
  let '((compensation_success_result, compensation_errors), s') :=
    __execute_orchestrator_compensation self (failed_at f) s in
  (mkSagaException (ErrExn (failed_with f))
                   (Some (fn_name (func (op_first (failed_op f)))))
                   compensation_success_result compensation_errors, s').

(** A run: what it returns or raises, the assembler afterwards, and the
    final world and log. *)
Definition outcome : Type := (raised + list pyval) * SagaAssembler * exec.

Definition start (self : SagaAssembler) (w : W) : exec :=
  Exec (__saga_results self) w [].

Definition finish (self : SagaAssembler) (s : exec) : SagaAssembler :=
  mkSaga (__retry_attempts self) (__operations self) (acc s).

Definition orchestrator_execute (self : SagaAssembler) (w : W) : outcome :=
  match __check_available_operations self with
  | inl e => (inl e, self, start self w)
  | inr _ =>
      match orchestrator_loop self (__operations self) 0 [] (start self w) with
      | (inr response, s) => (inr response, finish self s, s)
      | (inl f, s) =>
          let '(e, s') := orchestrator_handler self f s in
          (inl (RaiseSaga e), finish self s', s')
      end
  end.

(** *** Choreography *)

(** A thread of the pool is modelled by the points at which it can be
    interleaved with the others: before an invocation of its callable
    and before the append that follows a successful one.  An
    invocation itself is one atomic step on the shared state. *)
Inductive task :=
| Retrying (left : nat) (error : option exn)
    (* in the loop of [__retry_operation], [left] iterations to go *)
| Appending (response : pyval)
    (* [func()] returned; the append is still to be done *)
| Plain
    (* a callable submitted as it is: one invocation *)
| Done (r : exn + pyval).

(** What [__SagaThreadExecutor.submit] is given, and the thread that
    runs it. *)
Record job := Job {
  job_index : nat;
  job_pos : nat;
  job_name : string;
  job_func : partial;
  job_task : task
}.

Definition set_task (j : job) (t : task) : job :=
  Job (job_index j) (job_pos j) (job_name j) (job_func j) t.

(** The dictionary returned by [submit], once its future is resolved:
    [function_result] is what [.result()] returns or raises. *)
Record thread := Thread {
  function_index : nat;
  function_name : string;
  function_result : exn + pyval
}.

(** One step of a thread. *)
Definition task_step (j : job) (s : exec) : task * exec :=
  match job_task j with
  | Retrying O error => (Done (inl (raise_ error)), s)
  | Retrying (S n) _ =>
      let '(r, s1) := invoke (job_index j) 0 (job_func j) s in
      match r with
      | inr response => (Appending response, s1)
      | inl err => (Retrying n (Some err), s1)
      end
  | Appending response => (Done (inr response), append_result response s)
  | Plain =>
      let '(r, s1) := invoke (job_index j) (job_pos j) (job_func j) s in
      (Done r, s1)
  | Done r => (Done r, s)
  end.

(** A thread run to its end without interruption. *)
Definition task_finish (j : job) (s : exec) : (exn + pyval) * exec :=
  match job_task j with
  | Retrying n error => retry_loop n error (job_index j) (job_func j) s
  | Appending response => (inr response, append_result response s)
  | Plain => invoke (job_index j) (job_pos j) (job_func j) s
  | Done r => (r, s)
  end.

(** The barrier: every thread still running is run to its end. *)
Fixpoint pool_drain (jobs : list job) (s : exec) : list thread * exec :=
  match jobs with
  | [] => ([], s)
  | j :: rest =>
      let '(r, s1) := task_finish j s in
      let '(threads, s2) := pool_drain rest s1 in
      (Thread (job_index j) (job_name j) r :: threads, s2)
  end.

(** The pool under a schedule: each entry names the thread (by its
    position in the list of submitted jobs) that takes the next step;
    when the schedule is used up the barrier completes the rest.  The
    threads come back in the order of submission. *)
Fixpoint pool_run (sched : list nat) (jobs : list job) (s : exec)
  : list thread * exec :=
  match sched with
  | [] => pool_drain jobs s
  | k :: sched' =>
      match jobs !! k with
      | Some j =>
          let '(t, s1) := task_step j s in
          pool_run sched' (<[k := set_task j t]> jobs) s1
      | None => pool_run sched' jobs s
      end
  end.

(** An entry of [errors] in [__prepare_thread_result]. *)
Record thread_error := ThreadError {
  error_index : nat;
  error_name : string;
  error : exn
}.

Record __SagaThreadException := mkSagaThreadException {
  success_results : list nat;
  failed_results : list thread_error
}.

Fixpoint prepare_loop (threads : list thread) (success : list pyval)
         (success_index : list nat) (errors : list thread_error)
  : list pyval * list nat * list thread_error :=
  match threads with
  | [] => (success, success_index, errors)
  | th :: rest =>
      match function_result th with
      | inr v =>
          prepare_loop rest (success ++ [v])
                       (success_index ++ [function_index th]) errors
      | inl err =>
          prepare_loop rest success success_index
                       (errors ++ [ThreadError (function_index th)
                                               (function_name th) err])
      end
  end.

Definition __prepare_thread_result (threads : list thread)
  : __SagaThreadException + list pyval :=
  let '(success, success_index, errors) := prepare_loop threads [] [] [] in
  match errors with
  | [] => inr success
  | _ => inl (mkSagaThreadException success_index errors)
  end.

(** The action threads of [choreography_execute]. *)
Definition initial_task (self : SagaAssembler) : task :=
  match range_len (__retry_attempts self) with
  | inl e => Done (inl e)
  | inr n => Retrying n None
  end.

Definition action_jobs (self : SagaAssembler) : list job :=
  imap (fun operation_index t =>
          Job operation_index 0 (fn_name (func (op_first t))) (op_first t)
              (initial_task self))
       (__operations self).

(** The list comprehension of [__execute_choreography_compensation]:
    the jobs submitted, and the IndexError of a lookup out of range,
    which ends the comprehension. *)
Fixpoint compensation_threads (self : SagaAssembler)
         (success_index : list nat) : list job * option exn :=
  match success_index with
  | [] => ([], None)
  | compensation_index :: rest =>
      match __operations self !! compensation_index with
      | None => ([], Some (Exn "IndexError" "list index out of range"))
      | Some t =>
          if Nat.eqb (op_len t) 2 then
            let '(jobs, e) := compensation_threads self rest in
            (Job compensation_index (op_len t - 1)
                 (fn_name (func (op_last t))) (op_last t) Plain :: jobs, e)
          else compensation_threads self rest
      end
  end.

Fixpoint collect (threads : list thread)
         (compensation_success_result : list pyval)
         (compensation_exceptions : list string)
  : list pyval * list string :=
  match threads with
  | [] => (compensation_success_result, compensation_exceptions)
  | th :: rest =>
      match function_result th with
      | inr v =>
          collect rest (compensation_success_result ++ [v])
                  compensation_exceptions
      | inl err =>
          collect rest compensation_success_result
                  (compensation_exceptions ++ [str err])
      end
  end.

(** Leaving the [with] block waits for what was submitted, also when
    the comprehension raised. *)
Definition __execute_choreography_compensation (sched : list nat)
           (self : SagaAssembler) (success_index : list nat) (s : exec)
  : (exn + option (list pyval) * option (list string)) * exec :=
  let '(jobs, e) := compensation_threads self success_index in
  let '(threads, s') := pool_run sched jobs s in
  match e with
  | Some e => (inl e, s')
  | None =>
      let '(ok, errs) := collect threads [] [] in
      (inr (or_None ok, or_None errs), s')
  end.

(** [choreography_execute] under a schedule for the action threads and
    one for the compensation threads. *)
Definition choreography_execute (sched comp_sched : list nat)
           (self : SagaAssembler) (w : W) : outcome :=
  match __check_available_operations self with
  | inl e => (inl e, self, start self w)
  | inr _ =>
      let '(threads, s) := pool_run sched (action_jobs self) (start self w) in
      match __prepare_thread_result threads with
      | inr success => (inr success, finish self s, s)
      | inl operation_error =>
          match __execute_choreography_compensation
                  comp_sched self (success_results operation_error) s with
          | (inl e, s') => (inl (RaiseExn e), finish self s', s')
          | (inr (compensation_success_result, compensation_errors), s') =>
              match failed_results operation_error with
              | [] =>
                  (inl (RaiseExn (Exn "IndexError" "list index out of range")),
                   finish self s', s')
              | first :: _ =>
                  (inl (RaiseSaga
                          (mkSagaException (ErrExn (error first))
                                           (Some (error_name first))
                                           compensation_success_result
                                           compensation_errors)),
                   finish self s', s')
              end
          end
      end
  end.

(** *** Assumptions on the callables of a run *)

(** The first [n] invocations of the action from [s] all raise: the
    exception retained afterwards and the state reached. *)
Fixpoint attempts_fail (n : nat) (error : option exn) (i : nat)
         (func : partial) (s : exec) : option (option exn * exec) :=
  match n with
  | O => Some (error, s)
  | S n' =>
      match invoke i 0 func s with
      | (inl err, s1) => attempts_fail n' (Some err) i func s1
      | (inr _, _) => None
      end
  end.

(** The callable returns a value whatever the accumulator and the
    world. *)
Definition always_returns (p : partial) : Prop :=
  forall acc w, is_ok (fst (call (func p) (args p) acc w)) = true.

(** The thread has not failed and has an attempt left. *)
Definition healthy (t : task) : Prop :=
  match t with
  | Retrying n _ => 0 < n
  | Appending _ | Plain => True
  | Done r => is_ok r = true
  end.

End Execution.

Arguments Exec {W}.
Arguments acc {W}.
Arguments world {W}.
Arguments log {W}.
Arguments invoke {W} call i pos p s.
Arguments append_result {W} response s.
Arguments retry_loop {W} call n error i func s.
Arguments __retry_operation {W} call self i func s.
Arguments sweep {W} call self indices _ _ s.
Arguments __execute_orchestrator_compensation {W} call self _ s.
Arguments orchestrator_loop {W} call self ops _ _ s.
Arguments orchestrator_handler {W} call self f s.
Arguments start {W} self w.
Arguments finish {W} self s.
Arguments orchestrator_execute {W} call self w.
Arguments task_step {W} call j s.
Arguments task_finish {W} call j s.
Arguments pool_drain {W} call jobs s.
Arguments pool_run {W} call sched jobs s.
Arguments __execute_choreography_compensation {W} call sched self _ s.
Arguments choreography_execute {W} call sched comp_sched self w.
Arguments attempts_fail {W} call n error i func s.
Arguments always_returns {W} call p.

(** ** Configurations and declarations *)

(** The configuration the specification asks for: a positive integer. *)
Definition positive_integer (v : pyval) : bool :=
  match v with VInt z => (0 <? z)%Z | _ => false end.

Definition raises {A} (r : raised + A) : Prop := exists e, r = inl (RaiseSaga e).

(** What [__check_operation] turns into a partial: a plain function, or
    a sequence that begins with one. *)
Definition declarable (arg : pyval) : bool :=
  match arg with
  | VFunction _ => true
  | VSeq (VFunction _ :: _) => true
  | _ => false
  end.

(** The values on which [arg[0]] has nothing to return. *)
Definition empty_indexable (arg : pyval) : bool :=
  match arg with
  | VSeq [] => true
  | VStr EmptyString => true
  | _ => false
  end.

(** ** A concrete environment

    The world counts the invocations of [flaky]; the bodies are selected
    by [fn_code]. *)
Module Demo.

Definition debit := Function "debit" 0.
Definition credit := Function "credit" 1.
Definition reserve := Function "reserve" 2.
Definition release := Function "release" 3.
Definition ship := Function "ship" 4.
Definition flaky := Function "flaky" 5.
Definition picky := Function "picky" 6.

(** [ship] always raises; [flaky(n)] raises until it has been invoked
    [n] times; [picky(x)] raises when the world is [x]; every other
    function returns its own name. *)
Definition call (f : function) (args acc : list pyval) (w : nat)
  : (exn + pyval) * nat :=
  match fn_code f, args with
  | 4, _ => (inl (Exn "RuntimeError" "out of stock"), w)
  | 5, [VInt n] =>
      if (Z.of_nat (S w) <? n)%Z
      then (inl (Exn "TimeoutError" "try again"), S w)
      else (inr (VInt (Z.of_nat (S w))), S w)
  | 6, [VInt x] =>
      if (Z.of_nat w =? x)%Z
      then (inl (Exn "ValueError" "picky"), w)
      else (inr (VInt x), w)
  | _, _ => (inr (VStr (fn_name f)), w)
  end.

Definition bare (f : function) : partial := Partial f [].

(** The saga of the specification's example. *)
Definition order : SagaAssembler :=
  mkSaga (VInt 1)
         [Op2 (bare debit) (bare credit);
          Op2 (bare reserve) (bare release);
          Op1 (bare ship)]
         [].

(** Two operations declared without compensation. *)
Definition stock : SagaAssembler :=
  mkSaga (VInt 1) [Op1 (bare reserve); Op1 (bare ship)] [].

(** The same function bound to two different arguments. *)
Definition twins : SagaAssembler :=
  mkSaga (VInt 1)
         [Op1 (Partial picky [VInt 0]); Op1 (Partial picky [VInt 1])] [].

(** Two attempts each; the actions at indices 1 and 3 raise. *)
Definition late : SagaAssembler :=
  mkSaga (VInt 2)
         [Op2 (bare debit) (bare credit);
          Op1 (bare ship);
          Op2 (bare reserve) (bare release);
          Op1 (Partial picky [VInt 0])]
         [].

(** No action raises. *)
Definition calm : SagaAssembler :=
  mkSaga (VInt 1) [Op2 (bare debit) (bare credit); Op1 (bare reserve)] [].

End Demo.

(** ** Reading the log *)

Definition ev_ok (ev : event) : bool := is_ok (ev_result ev).

Definition ev_value (ev : event) : option pyval :=
  match ev_result ev with inr v => Some v | inl _ => None end.

Definition ev_error (ev : event) : option string :=
  match ev_result ev with inl e => Some (str e) | inr _ => None end.

(** The position [t[-1]] reads in the tuple of operation [j]. *)
Definition last_pos (self : SagaAssembler) (j : nat) : nat :=
  from_option (fun t => op_len t - 1) 0 (__operations self !! j).

(** Operation [j] was declared with a compensation. *)
Definition has_compensation (self : SagaAssembler) (j : nat) : bool :=
  match __operations self !! j with
  | Some (Op2 _ _) => true
  | _ => false
  end.

(** ** Reading the threads *)

Definition th_ok (th : thread) : bool := is_ok (function_result th).

Definition th_value (th : thread) : option pyval :=
  match function_result th with inr v => Some v | inl _ => None end.

Definition th_message (th : thread) : option string :=
  match function_result th with inl e => Some (str e) | inr _ => None end.

Definition th_failure (th : thread) : option thread_error :=
  match function_result th with
  | inl e => Some (ThreadError (function_index th) (function_name th) e)
  | inr _ => None
  end.

(** The thread at position [i] returned a value. *)
Definition thread_ok (threads : list thread) (i : nat) : bool :=
  match threads !! i with Some th => th_ok th | None => false end.

Definition job_meta (j : job) : nat * string := (job_index j, job_name j).
Definition thread_meta (th : thread) : nat * string :=
  (function_index th, function_name th).

(** The invocations a pool of plain jobs makes, one for each job that
    has not run yet, with the result its thread ends with. *)
Fixpoint plain_events (jobs : list job) (threads : list thread) : list event :=
  match jobs, threads with
  | j :: jobs', th :: threads' =>
      match job_task j with
      | Plain => [Call (job_index j) (job_pos j) (function_result th)]
      | _ => []
      end ++ plain_events jobs' threads'
  | _, _ => []
  end.

(** The value a thread already holds. *)
Definition holds (t : task) (v : pyval) : Prop :=
  t = Appending v \/ t = Done (inr v).

(** What the compensation phase of a failed run reports, [sw] being the
    invocations that phase made: the two fields are the collected values
    and the collected messages, each [None] when nothing was collected;
    both are [None] when nothing was invoked; and when every invocation
    returned, there is no message and one value for each invocation. *)
Definition aggregated (e : SagaException) (sw : list event) : Prop :=
  (exists outs msgs,
     compensation_success_result e = or_None outs /\
     compensation_errors e = or_None msgs /\
     outs ≡ₚ omap ev_value sw /\ msgs ≡ₚ omap ev_error sw) /\
  (sw = [] ->
   compensation_success_result e = None /\ compensation_errors e = None) /\
  (sw <> [] -> Forall (fun ev => ev_ok ev = true) sw ->
   compensation_errors e = None /\
   exists outs, compensation_success_result e = Some outs /\
                length outs = length sw).

(** ** Reading the pool *)

(** The thread of job [j] ended with [th], and what it returned was
    returned by an invocation among [evs], unless [j] held it before. *)
Definition returned (evs : list event) (j : job) (th : thread) : Prop :=
  forall v, function_result th = inr v ->
    holds (job_task j) v \/ Call (job_index j) 0 (inr v) ∈ evs.

(** A thread of a plain job: not yet run, or done. *)
Definition plain_task (t : task) : Prop := t = Plain \/ exists r, t = Done r.

(** A thread that was done keeps its result. *)
Definition kept (j : job) (th : thread) : Prop :=
  forall r, job_task j = Done r -> function_result th = r.

(** The value a thread has returned and appended. *)
Definition settled_value (j : job) : option pyval :=
  match job_task j with Done (inr v) => Some v | _ => None end.

(** The values appended by the threads that are done. *)
Definition settled (jobs : list job) : list pyval := omap settled_value jobs.

(** The invocations a thread can still make. *)
Definition attempts_left (t : task) : nat :=
  match t with
  | Retrying n _ => n
  | Plain => 1
  | Appending _ | Done _ => 0
  end.

(** The invocations the threads of operation [i] can still make. *)
Definition budget (i : nat) (jobs : list job) : nat :=
  sum_list (map (fun j => if Nat.eqb (job_index j) i
                          then attempts_left (job_task j) else 0) jobs).

(** The number of invocations logged for operation [i]. *)
Definition invocations (i : nat) (evs : list event) : nat :=
  length (List.filter (fun ev => Nat.eqb (ev_index ev) i) evs).

(** * Properties *)

(** ** Construction *)

Lemma saga_rejects (v : pyval) :
  raises (saga v) <-> truthy v = true /\ is_int_or_float v = false.
Proof.
  unfold raises, saga, __init__, saga_error.
  destruct (truthy v), (is_int_or_float v); simpl; split;
    try (intros [e He]; discriminate);
    try (intros [? ?]; discriminate);
    eauto.
Qed.

(** C8, as the specification states it, fails: a negative integer is no
    positive integer, and the constructor accepts it and keeps it. *)
Lemma C8_nonpositive_accepted :
  positive_integer (VInt (-1)) = false /\
  saga (VInt (-1)) = inr (mkSaga (VInt (-1)) [] []).
Proof. split; reflexivity. Qed.

(** C8 (amended): the constructor raises exactly for a value that is
    truthy and neither an int nor a float; no sign is checked.  An
    omitted value gives 1, as does every other falsy value; every other
    accepted value is kept as it is, a negative integer or a float too,
    and the assembler starts with no operation and no result. *)
Theorem C8_construction (v : pyval) :
  (raises (saga v) <-> truthy v = true /\ is_int_or_float v = false) /\
  saga VNone = inr (mkSaga (VInt 1) [] []) /\
  (truthy v = false -> saga v = inr (mkSaga (VInt 1) [] [])) /\
  (truthy v = true -> is_int_or_float v = true ->
   saga v = inr (mkSaga v [] [])).
Proof.
  split; [apply saga_rejects|].
  split; [reflexivity|].
  unfold saga, __init__.
  split.
  - intros ->. reflexivity.
  - intros -> ->. reflexivity.
Qed.

(** ** Declaration *)

Lemma check_declarable (arg : pyval) :
  declarable arg = true -> exists p, __check_operation arg = inr p.
Proof.
  destruct arg as [| | | | |f| |[|[] items]]; simpl; try discriminate; eauto.
Qed.

Lemma check_not_declarable (arg : pyval) :
  declarable arg = false -> empty_indexable arg = false ->
  __check_operation arg =
    inl (saga_error "Please add function in operation argument.").
Proof.
  destruct arg as [| | | |[]|f| |[|[] items]]; simpl; try discriminate;
    reflexivity.
Qed.

Lemma check_empty_indexable (arg : pyval) :
  empty_indexable arg = true ->
  exists e, __check_operation arg = inl (RaiseExn e).
Proof.
  destruct arg as [| | | |[]|f| |[|[] items]]; simpl; try discriminate; eauto.
Qed.

(** A raise of [operation] leaves the assembler as it was. *)
Lemma operation_raise_unchanged (self : SagaAssembler) (args : list pyval) e :
  fst (operation self args) = inl e -> snd (operation self args) = self.
Proof.
  unfold operation.
  destruct args as [|arg1 [|arg2 [|arg3 rest]]]; simpl; try reflexivity.
  - destruct (__check_operation arg1); simpl; [reflexivity | discriminate].
  - destruct (__check_operation arg1); simpl; [reflexivity|].
    destruct (__check_operation arg2); simpl; [reflexivity | discriminate].
Qed.

(** A sequence binds its function to the arguments that follow it. *)
Example operation_binds :
  operation (mkSaga (VInt 1) [] [])
            [VSeq [VFunction (Function "debit" 0); VInt 5];
             VFunction (Function "credit" 1)] =
    (inr (),
     mkSaga (VInt 1)
            [Op2 (Partial (Function "debit" 0) [VInt 5])
                 (Partial (Function "credit" 1) [])] []).
Proof. reflexivity. Qed.




Section Properties.

Variable W : Type.
Variable call : function -> list pyval -> list pyval -> W -> (exn + pyval) * W.

(** ** The retry executor *)

Lemma retry_loop_after_failures n m error i func s error' s' :
  attempts_fail call n error i func s = Some (error', s') ->
  retry_loop call (n + m) error i func s = retry_loop call m error' i func s'.
Proof.
  revert error s. induction n as [|n IH]; simpl; intros error s H.
  - by inversion H.
  - destruct (invoke call i 0 func s) as [[err|v] s1]; [|discriminate].
    by apply IH.
Qed.

Lemma invoke_log i pos p s r s' :
  invoke call i pos p s = (r, s') ->
  log s' = log s ++ [Call i pos r] /\ acc s' = acc s.
Proof.
  unfold invoke. destruct (call _ _ _ _) as [r0 w]. intros H.
  by inversion H.
Qed.

Lemma attempts_fail_log n error i func s error' s' :
  attempts_fail call n error i func s = Some (error', s') ->
  exists evs, log s' = log s ++ evs /\ length evs = n /\ acc s' = acc s /\
    Forall (fun ev => ev_key ev = (i, 0) /\ is_ok (ev_result ev) = false) evs /\
    (0 < n -> exists e, error' = Some e /\ last evs = Some (Call i 0 (inl e))).
Proof.
  revert error s. induction n as [|n IH]; simpl; intros error s H.
  - inversion H; subst. exists []. rewrite app_nil_r.
    repeat split; [constructor | lia].
  - destruct (invoke call i 0 func s) as [[err|v] s1] eqn:E; [|discriminate].
    apply invoke_log in E as [E1 E2].
    destruct (IH _ _ H) as (evs & L & Len & A & F & Last).
    exists (Call i 0 (inl err) :: evs).
    rewrite L, E1, <- app_assoc. simpl.
    repeat split; [lia | congruence | by constructor |].
    intros _. destruct n as [|n].
    + destruct evs; [|discriminate]. simpl in H. inversion H; subst. eauto.
    + destruct Last as (e & -> & Hl); [lia|]. exists e. split; [done|].
      destruct evs; [discriminate | done].
Qed.

Lemma retry_loop_log n error i func s r s' :
  retry_loop call n error i func s = (r, s') ->
  exists evs,
    log s' = log s ++ evs /\
    Forall (fun ev => ev_key ev = (i, 0)) evs /\
    match r with
    | inr v => acc s' = acc s ++ [v] /\
               List.filter ev_ok evs = [Call i 0 (inr v)]
    | inl _ => acc s' = acc s /\ List.filter ev_ok evs = []
    end.
Proof.
  revert error s. induction n as [|n IH]; simpl; intros error s H.
  - inversion H; subst. exists []. by rewrite app_nil_r.
  - destruct (invoke call i 0 func s) as [[err|v] s1] eqn:E;
      apply invoke_log in E as [E1 E2].
    + destruct (IH _ _ H) as (evs & L & F & R).
      exists (Call i 0 (inl err) :: evs).
      rewrite L, E1, <- app_assoc. repeat split; [by constructor|].
      simpl. destruct r; by rewrite <- E2.
    + inversion H; subst. exists [Call i 0 (inr v)]. simpl.
      repeat split; [done | by repeat constructor | by rewrite E2].
Qed.

Lemma retry_operation_log self i func s r s' :
  __retry_operation call self i func s = (r, s') ->
  exists evs,
    log s' = log s ++ evs /\
    Forall (fun ev => ev_key ev = (i, 0)) evs /\
    match r with
    | inr v => acc s' = acc s ++ [v] /\
               List.filter ev_ok evs = [Call i 0 (inr v)]
    | inl _ => acc s' = acc s /\ List.filter ev_ok evs = []
    end.
Proof.
  unfold __retry_operation.
  destruct (range_len _) as [e|n]; [|apply retry_loop_log].
  intros H. inversion H; subst. exists []. by rewrite app_nil_r.
Qed.

(** ** The orchestrator *)

Lemma orchestrator_loop_app self done rest i response s :
  orchestrator_loop call self (done ++ rest) i response s =
    match orchestrator_loop call self done i response s with
    | (inr response', s1) =>
        orchestrator_loop call self rest (i + length done) response' s1
    | (inl f, s1) => (inl f, s1)
    end.
Proof.
  revert i response s. induction done as [|t done IH]; simpl; intros.
  - by rewrite Nat.add_0_r.
  - destruct (__retry_operation call self i (op_first t) s) as [[e|v] s1];
      [done|].
    rewrite IH. by replace (S i + length done) with (i + S (length done)) by lia.
Qed.

(** What the loop leaves in the log: invocations of actions only, of
    the operations it reached, and among them one successful invocation
    for each output, in the order of declaration. *)
Lemma orchestrator_loop_log self ops i response s r s' :
  orchestrator_loop call self ops i response s = (r, s') ->
  exists evs outs,
    log s' = log s ++ evs /\
    acc s' = acc s ++ outs /\
    Forall (fun ev => ev_pos ev = 0 /\ i <= ev_index ev) evs /\
    List.filter ev_ok evs = imap (fun k v => Call (i + k) 0 (inr v)) outs /\
    match r with
    | inr out => out = response ++ outs /\ length outs = length ops
    | inl f =>
        failed_at f = i + length outs /\
        ops !! length outs = Some (failed_op f) /\
        Forall (fun ev => ev_index ev <= failed_at f) evs
    end.
Proof.
  revert i response s. induction ops as [|t ops IH]; simpl; intros i response s H.
  - inversion H; subst. exists [], []. rewrite !app_nil_r. by repeat split.
  - destruct (__retry_operation call self i (op_first t) s) as [[e|v] s1] eqn:E;
      apply retry_operation_log in E as (evs1 & L1 & F1 & R1).
    + inversion H; subst. destruct R1 as [A1 K1].
      exists evs1, []. rewrite app_nil_r. simpl. rewrite Nat.add_0_r.
      repeat split; try done.
      * eapply Forall_impl; [exact F1|]. intros ev Hk.
        unfold ev_key in Hk. inversion Hk. split; [done | lia].
      * eapply Forall_impl; [exact F1|]. intros ev Hk.
        unfold ev_key in Hk. inversion Hk. lia.
    + destruct R1 as [A1 K1].
      destruct (IH _ _ _ H) as (evs & outs & L & A & F & K & R).
      exists (evs1 ++ evs), (v :: outs).
      rewrite L, L1, A, A1, <- !app_assoc. simpl.
      repeat split.
      * apply Forall_app. split.
        -- eapply Forall_impl; [exact F1|]. intros ev Hk.
           unfold ev_key in Hk. inversion Hk. split; [done | lia].
        -- eapply Forall_impl; [exact F|]. intros ev [? ?]. split; [done | lia].
      * rewrite List.filter_app, K1, K. simpl. rewrite Nat.add_0_r.
        f_equal. apply imap_ext. intros k x _. simpl. f_equal. lia.
      * destruct r as [f|out].
        -- destruct R as (R1 & R2 & R3). repeat split; [lia | done |].
           apply Forall_app. split; [|done].
           eapply Forall_impl; [exact F1|]. intros ev Hk.
           unfold ev_key in Hk. inversion Hk. lia.
        -- destruct R as [-> R2]. rewrite <- app_assoc. simpl.
           split; [done | lia].
Qed.

Lemma sweep_log self indices ok errs s ok' errs' s' :
  Forall (fun j => j < length (__operations self)) indices ->
  sweep call self indices ok errs s = (ok', errs', s') ->
  exists evs,
    log s' = log s ++ evs /\
    acc s' = acc s /\
    map ev_key evs = map (fun j => (j, last_pos self j)) indices /\
    ok' = ok ++ omap ev_value evs /\
    errs' = errs ++ omap ev_error evs.
Proof.
  revert ok errs s. induction indices as [|j indices IH]; simpl;
    intros ok errs s Hin H.
  - inversion H; subst. exists []. by rewrite !app_nil_r.
  - apply Forall_cons in Hin as [Hj Hin].
    destruct (lookup_lt_is_Some_2 _ _ Hj) as [t Ht].
    unfold last_pos at 1. rewrite Ht in *. simpl.
    assert (negb (Nat.eqb (op_len t) 0) = true) as Hlen by by destruct t.
    rewrite Hlen in H.
    destruct (invoke call j (op_len t - 1) (op_last t) s) as [[e|v] s1] eqn:E;
      apply invoke_log in E as [E1 E2];
      destruct (IH _ _ _ Hin H) as (evs & L & A & K & O & R);
      eexists (_ :: evs); rewrite L, E1, A, E2, <- app_assoc; simpl;
      unfold ev_key at 1, ev_value at 1, ev_error at 1; simpl;
      rewrite K, O, R, <- ?app_assoc; by repeat split.
Qed.

Lemma last_pos_compensation self j :
  Nat.eqb (last_pos self j) 1 = has_compensation self j.
Proof.
  unfold last_pos, has_compensation.
  by destruct (__operations self !! j) as [[]|].
Qed.

Lemma keys_compensations self evs indices :
  map ev_key evs = map (fun j => (j, last_pos self j)) indices ->
  map ev_index evs = indices /\
  map ev_index (List.filter (fun ev => Nat.eqb (ev_pos ev) 1) evs) =
    List.filter (has_compensation self) indices.
Proof.
  revert indices. induction evs as [|ev evs IH]; intros [|j indices];
    simpl; try done.
  intros H. inversion H as [[H1 H2 H3]].
  destruct (IH _ H3) as [IH1 IH2].
  rewrite H2, last_pos_compensation.
  split; [by rewrite IH1|].
  destruct (has_compensation self _); simpl; by rewrite IH2.
Qed.

Lemma down_from_lt k : Forall (fun j => j < k) (down_from k).
Proof.
  unfold down_from. apply Forall_forall. intros j Hj.
  apply list_elem_of_In, in_rev, in_seq in Hj. lia.
Qed.

(** The sweep after a failure at an index within the registry: it
    invokes [t[-1]] of every earlier operation, from the nearest down
    to the first, and its two results are the collected values and
    messages, or [None] where nothing was collected. *)
Lemma orchestrator_handler_log self f s e s' :
  failed_at f <= length (__operations self) ->
  orchestrator_handler call self f s = (e, s') ->
  exists sw,
    log s' = log s ++ sw /\
    acc s' = acc s /\
    map ev_key sw =
      map (fun j => (j, last_pos self j)) (down_from (failed_at f)) /\
    e = mkSagaException
          (ErrExn (failed_with f))
          (Some (fn_name (func (op_first (failed_op f)))))
          (or_None (omap ev_value sw)) (or_None (omap ev_error sw)).
Proof.
  intros Hk. unfold orchestrator_handler, __execute_orchestrator_compensation.
  destruct (sweep call self _ [] [] s) as [[ok errs] s2] eqn:E.
  intros H. inversion H; subst. clear H.
  apply sweep_log in E as (sw & L & A & K & -> & ->).
  - by exists sw.
  - eapply Forall_impl; [apply down_from_lt|]. simpl. lia.
Qed.

Lemma orchestrator_execute_failure self w f s1 :
  orchestrator_loop call self (__operations self) 0 [] (start self w)
    = (inl f, s1) ->
  exists e s',
    orchestrator_handler call self f s1 = (e, s') /\
    orchestrator_execute call self w = (inl (RaiseSaga e), finish self s', s').
Proof.
  intros H. unfold orchestrator_execute, __check_available_operations.
  destruct (__operations self) as [|t ops] eqn:E; [discriminate|].
  rewrite H.
  destruct (orchestrator_handler call self f s1) as [e s'].
  by exists e, s'.
Qed.

Lemma orchestrator_execute_success self w out s1 :
  orchestrator_loop call self (__operations self) 0 [] (start self w)
    = (inr out, s1) ->
  __operations self <> [] ->
  orchestrator_execute call self w = (inr out, finish self s1, s1).
Proof.
  intros H Hne. unfold orchestrator_execute, __check_available_operations.
  destruct (__operations self) as [|t ops] eqn:E; [done|].
  by rewrite H.
Qed.



(** ** The thread pool *)

(** Taking one step of a thread and then running it to its end is
    running it to its end: alone, a thread of the pool is the loop of
    [__retry_operation]. *)
Lemma task_step_finish j s t s1 :
  task_step call j s = (t, s1) ->
  task_finish call (set_task j t) s1 = task_finish call j s.
Proof.
  unfold task_step, task_finish. simpl.
  destruct (job_task j) as [[|n] error|v| |r]; simpl.
  - intros H. by inversion H.
  - destruct (invoke call (job_index j) 0 (job_func j) s) as [[e|v] s2];
      intros H; by inversion H.
  - intros H. by inversion H.
  - destruct (invoke call (job_index j) (job_pos j) (job_func j) s) as [r s2].
    intros H. by inversion H.
  - intros H. by inversion H.
Qed.

Lemma insert_set_task {B} (f : job -> B) jobs k j t :
  (forall j t, f (set_task j t) = f j) ->
  jobs !! k = Some j ->
  map f (<[k := set_task j t]> jobs) = map f jobs.
Proof.
  intros Hf Hk. change (map f) with (fmap (M:=list) f).
  rewrite list_fmap_insert, Hf. apply list_insert_id.
  by rewrite list_lookup_fmap, Hk.
Qed.

Lemma pool_drain_meta jobs s threads s' :
  pool_drain call jobs s = (threads, s') ->
  map thread_meta threads = map job_meta jobs.
Proof.
  revert s threads. induction jobs as [|j jobs IH]; simpl; intros s threads H.
  - by inversion H.
  - destruct (task_finish call j s) as [r s1].
    destruct (pool_drain call jobs s1) as [ths s2] eqn:E.
    inversion H; subst. simpl. f_equal. by eapply IH.
Qed.

Lemma pool_run_meta sched jobs s threads s' :
  pool_run call sched jobs s = (threads, s') ->
  map thread_meta threads = map job_meta jobs.
Proof.
  revert jobs s. induction sched as [|k sched IH]; simpl; intros jobs s H.
  - by eapply pool_drain_meta.
  - destruct (jobs !! k) as [j|] eqn:Hk; [|by eapply IH].
    destruct (task_step call j s) as [t s1].
    apply IH in H. rewrite H. by apply insert_set_task.
Qed.

Lemma prepare_loop_spec threads success success_index errors :
  prepare_loop threads success success_index errors =
    (success ++ omap th_value threads,
     success_index ++ map function_index (List.filter th_ok threads),
     errors ++ omap th_failure threads).
Proof.
  revert success success_index errors.
  induction threads as [|th threads IH]; simpl; intros.
  - by rewrite !app_nil_r.
  - unfold th_value at 1, th_failure at 1, th_ok at 1.
    destruct (function_result th) as [e|v]; simpl;
      rewrite IH, <- ?app_assoc; reflexivity.
Qed.

Lemma prepare_thread_result_spec threads :
  __prepare_thread_result threads =
    match omap th_failure threads with
    | [] => inr (omap th_value threads)
    | errors =>
        inl (mkSagaThreadException
               (map function_index (List.filter th_ok threads)) errors)
    end.
Proof.
  unfold __prepare_thread_result. rewrite prepare_loop_spec. simpl.
  by destruct (omap th_failure threads).
Qed.

(** *** Threads of the retry executor *)

Lemma task_finish_retry j s r s1 :
  job_task j <> Plain ->
  task_finish call j s = (r, s1) ->
  exists evs,
    log s1 = log s ++ evs /\
    Forall (fun ev => ev_key ev = (job_index j, 0)) evs /\
    forall v, r = inr v ->
      holds (job_task j) v \/ Call (job_index j) 0 (inr v) ∈ evs.
Proof.
  unfold task_finish, holds. intros Hp.
  destruct (job_task j) as [n error|v0| |r0]; [| | done |].
  - intros H. apply retry_loop_log in H as (evs & L & F & R).
    exists evs. repeat split; [done..|].
    intros v ->. right. destruct R as [_ R].
    apply list_elem_of_In. eapply List.filter_In. rewrite R. by left.
  - intros H. inversion H; subst. exists []. rewrite app_nil_r.
    repeat split; [done|]. intros v Hv. inversion Hv. eauto.
  - intros H. inversion H; subst. exists []. rewrite app_nil_r.
    repeat split; [done|]. intros v ->. eauto.
Qed.

Lemma task_step_retry j s t s1 :
  job_task j <> Plain ->
  task_step call j s = (t, s1) ->
  t <> Plain /\
  exists evs,
    log s1 = log s ++ evs /\
    Forall (fun ev => ev_key ev = (job_index j, 0)) evs /\
    forall v, holds t v ->
      holds (job_task j) v \/ Call (job_index j) 0 (inr v) ∈ evs.
Proof.
  unfold task_step, holds. intros Hp.
  destruct (job_task j) as [[|n] error|v0| |r0]; [| | | done |].
  - intros H. inversion H; subst. split; [done|]. exists [].
    rewrite app_nil_r. repeat split; [done|]. by intros v [|].
  - destruct (invoke call (job_index j) 0 (job_func j) s) as [[e|v0] s2] eqn:E;
      apply invoke_log in E as [E1 E2]; intros H; inversion H; subst;
      (split; [done|]); eexists; (split; [exact E1|]);
      (split; [by repeat constructor|]).
    + by intros v [|].
    + intros v [Hv|Hv]; inversion Hv; subst. right. set_solver.
  - intros H. inversion H; subst. split; [done|]. exists [].
    rewrite app_nil_r. repeat split; [done|].
    intros v [Hv|Hv]; inversion Hv. eauto.
  - intros H. inversion H; subst. split; [done|]. exists [].
    rewrite app_nil_r. repeat split; [done|]. eauto.
Qed.

Lemma pool_drain_retry jobs s threads s' :
  Forall (fun j => job_task j <> Plain) jobs ->
  pool_drain call jobs s = (threads, s') ->
  exists evs,
    log s' = log s ++ evs /\
    Forall (fun ev => ev_pos ev = 0 /\ ev_index ev ∈ map job_index jobs) evs /\
    Forall2 (returned evs) jobs threads.
Proof.
  revert s threads.
  induction jobs as [|j jobs IH]; simpl; intros s threads Hp H.
  - inversion H; subst. exists []. rewrite app_nil_r. by repeat constructor.
  - apply Forall_cons in Hp as [Hj Hp].
    destruct (task_finish call j s) as [r s1] eqn:E.
    destruct (pool_drain call jobs s1) as [ths s2] eqn:E2.
    inversion H; subst. clear H.
    apply task_finish_retry in E as (evs1 & L1 & F1 & R1); [|done].
    destruct (IH _ _ Hp E2) as (evs2 & L2 & F2 & R2).
    exists (evs1 ++ evs2). rewrite L2, L1, <- app_assoc.
    repeat split.
    + apply Forall_app. split.
      * eapply Forall_impl; [exact F1|]. intros ev Hk.
        unfold ev_key in Hk. injection Hk as Hi Hpos.
        split; [done|]. rewrite Hi. apply list_elem_of_here.
      * eapply Forall_impl; [exact F2|]. intros ev [Hpos Hin].
        split; [done|]. simpl. by apply list_elem_of_further.
    + constructor.
      * intros v Hv. destruct (R1 v Hv); [by left | right; set_solver].
      * eapply Forall2_impl; [exact R2|]. intros j' th' Hr v Hv.
        destruct (Hr v Hv); [by left | right; set_solver].
Qed.

(** What the pool of the action threads leaves in the log, under any
    schedule: invocations of actions only, and for every thread that
    returned a value the invocation that returned it. *)
Lemma pool_run_retry sched jobs s threads s' :
  Forall (fun j => job_task j <> Plain) jobs ->
  pool_run call sched jobs s = (threads, s') ->
  exists evs,
    log s' = log s ++ evs /\
    Forall (fun ev => ev_pos ev = 0 /\ ev_index ev ∈ map job_index jobs) evs /\
    Forall2 (returned evs) jobs threads.
Proof.
  revert jobs s.
  induction sched as [|k sched IH]; simpl; intros jobs s Hp H.
  - by apply pool_drain_retry.
  - destruct (jobs !! k) as [j|] eqn:Hk; [|by apply IH].
    destruct (task_step call j s) as [t s1] eqn:E.
    assert (job_task j <> Plain) as Hj.
    { rewrite Forall_forall in Hp. apply Hp. by eapply list_elem_of_lookup_2. }
    apply task_step_retry in E as (Ht & evs1 & L1 & F1 & R1); [|done].
    apply IH in H as (evs2 & L2 & F2 & R2).
    2: { apply Forall_insert; done. }
    exists (evs1 ++ evs2). rewrite L2, L1, <- app_assoc.
    assert (map job_index (<[k:=set_task j t]> jobs) = map job_index jobs) as Hidx.
    { by apply insert_set_task. }
    rewrite Hidx in F2.
    repeat split.
    + apply Forall_app. split; [|done].
      eapply Forall_impl; [exact F1|]. intros ev Hev.
      unfold ev_key in Hev. inversion Hev. split; [done|].
      apply list_elem_of_fmap. exists j. split; [done|].
      by eapply list_elem_of_lookup_2.
    + apply Forall2_same_length_lookup in R2 as [Hlen R2].
      rewrite length_insert in Hlen.
      apply Forall2_same_length_lookup. split; [done|].
      intros i x th Hx Hth v Hv.
      destruct (decide (i = k)) as [->|Hne].
      * rewrite Hk in Hx. inversion Hx; subst x.
        assert (<[k:=set_task j t]> jobs !! k = Some (set_task j t)) as Hk'.
        { apply list_lookup_insert_eq. by eapply lookup_lt_Some. }
        destruct (R2 _ _ _ Hk' Hth v Hv) as [Hh|Hin].
        -- destruct (R1 v Hh); [by left | right; set_solver].
        -- right. simpl in Hin. set_solver.
      * assert (<[k:=set_task j t]> jobs !! i = Some x) as Hi.
        { by rewrite list_lookup_insert_ne. }
        destruct (R2 _ _ _ Hi Hth v Hv); [by left | right; set_solver].
Qed.

(** *** Threads of plain jobs *)

Lemma set_task_same j : set_task j (job_task j) = j.
Proof. by destruct j. Qed.

Lemma plain_events_step jobs threads k j th :
  jobs !! k = Some j -> threads !! k = Some th ->
  job_task j = Plain ->
  plain_events jobs threads ≡ₚ
    Call (job_index j) (job_pos j) (function_result th) ::
    plain_events (<[k := set_task j (Done (function_result th))]> jobs) threads.
Proof.
  revert threads k.
  induction jobs as [|j0 jobs IH]; intros [|th0 threads] k; try done.
  destruct k as [|k]; simpl.
  - intros Hj Hth Hp. inversion Hj; inversion Hth; subst. by rewrite Hp.
  - intros Hj Hth Hp. rewrite (IH _ _ Hj Hth Hp).
    symmetry. apply Permutation_middle.
Qed.

Lemma pool_drain_plain jobs s threads s' :
  Forall (fun j => plain_task (job_task j)) jobs ->
  pool_drain call jobs s = (threads, s') ->
  log s' = log s ++ plain_events jobs threads /\
  acc s' = acc s /\
  Forall2 kept jobs threads.
Proof.
  revert s threads.
  induction jobs as [|j jobs IH]; simpl; intros s threads Hp H.
  - inversion H; subst. rewrite app_nil_r. by repeat constructor.
  - apply Forall_cons in Hp as [Hj Hp].
    destruct (task_finish call j s) as [r s1] eqn:E.
    destruct (pool_drain call jobs s1) as [ths s2] eqn:E2.
    inversion H; subst. clear H.
    destruct (IH _ _ Hp E2) as (L2 & A2 & K2).
    unfold task_finish in E. simpl.
    destruct Hj as [Hj|[r0 Hj]]; rewrite Hj in *.
    + apply invoke_log in E as [E1 E3].
      rewrite L2, E1, A2, E3, <- app_assoc.
      repeat split. constructor; [|done].
      intros r0 Hr. congruence.
    + inversion E; subst.
      repeat split; [done..|]. constructor; [|done].
      intros r1 Hr. simpl. congruence.
Qed.

(** What a pool of plain jobs leaves in the log, under any schedule:
    one invocation for each job, in some order; the accumulator is not
    touched. *)
Lemma pool_run_plain sched jobs s threads s' :
  Forall (fun j => plain_task (job_task j)) jobs ->
  pool_run call sched jobs s = (threads, s') ->
  exists evs,
    log s' = log s ++ evs /\
    acc s' = acc s /\
    evs ≡ₚ plain_events jobs threads /\
    Forall2 kept jobs threads.
Proof.
  revert jobs s.
  induction sched as [|k sched IH]; simpl; intros jobs s Hp H.
  - apply pool_drain_plain in H as (L & A & K); [|done]. by eexists.
  - destruct (jobs !! k) as [j|] eqn:Hk; [|by apply IH].
    assert (plain_task (job_task j)) as Hj.
    { rewrite Forall_forall in Hp. apply Hp. by eapply list_elem_of_lookup_2. }
    unfold task_step in H. destruct Hj as [Hj|[r0 Hj]]; rewrite Hj in H.
    + destruct (invoke call (job_index j) (job_pos j) (job_func j) s)
        as [r s1] eqn:E.
      apply invoke_log in E as [E1 E2].
      apply IH in H as (evs & L & A & P & K).
      2: { apply Forall_insert; [done|]. right. by eexists. }
      apply Forall2_same_length_lookup in K as [Hlen K].
      rewrite length_insert in Hlen.
      destruct (lookup_lt_is_Some_2 threads k) as [th Hth].
      { rewrite <- Hlen. by eapply lookup_lt_Some. }
      assert (function_result th = r) as Hr.
      { eapply (K k);
          [apply list_lookup_insert_eq; by eapply lookup_lt_Some
          |exact Hth|done]. }
      exists (Call (job_index j) (job_pos j) r :: evs).
      rewrite L, E1, A, E2, <- app_assoc. repeat split.
      * rewrite (plain_events_step _ _ _ _ _ Hk Hth Hj), Hr. by constructor.
      * apply Forall2_same_length_lookup. split; [done|].
        intros i x y Hx Hy r1 Hr1.
        destruct (decide (i = k)) as [->|Hne]; [congruence|].
        eapply (K i); [|exact Hy|exact Hr1].
        by rewrite list_lookup_insert_ne.
    + rewrite <- Hj, set_task_same, list_insert_id in H by done.
      by apply IH.
Qed.

(** *** Threads that cannot fail *)

Lemma invoke_returns i pos p s :
  always_returns call p -> exists v s1, invoke call i pos p s = (inr v, s1).
Proof.
  intros H. unfold invoke. specialize (H (acc s) (world s)).
  destruct (call _ _ _ _) as [[e|v] w]; [done|]. by eexists _, _.
Qed.

Lemma task_finish_healthy j s :
  healthy (job_task j) -> always_returns call (job_func j) ->
  is_ok (fst (task_finish call j s)) = true.
Proof.
  unfold task_finish. intros Hh Hr.
  destruct (job_task j) as [[|n] error|v| |r]; simpl in *; try done; try lia.
  - destruct (invoke_returns (job_index j) 0 _ s Hr) as (v & s1 & ->). done.
  - destruct (invoke_returns (job_index j) (job_pos j) _ s Hr) as (v & s1 & ->).
    done.
Qed.

Lemma task_step_healthy j s :
  healthy (job_task j) -> always_returns call (job_func j) ->
  healthy (fst (task_step call j s)).
Proof.
  unfold task_step. intros Hh Hr.
  destruct (job_task j) as [[|n] error|v| |r]; simpl in *; try done; try lia.
  - destruct (invoke_returns (job_index j) 0 _ s Hr) as (v & s1 & ->). done.
  - destruct (invoke_returns (job_index j) (job_pos j) _ s Hr) as (v & s1 & ->).
    done.
Qed.

Lemma pool_drain_healthy jobs s :
  Forall (fun j => healthy (job_task j) /\ always_returns call (job_func j)) jobs ->
  Forall (fun th => th_ok th = true) (fst (pool_drain call jobs s)).
Proof.
  revert s. induction jobs as [|j jobs IH]; simpl; intros s Hp; [done|].
  apply Forall_cons in Hp as [[Hh Hr] Hp].
  pose proof (task_finish_healthy j s Hh Hr) as Hok.
  destruct (task_finish call j s) as [r s1].
  specialize (IH s1 Hp).
  destruct (pool_drain call jobs s1) as [ths s2]. simpl in *.
  by constructor.
Qed.

(** When no action can raise and every thread has an attempt left,
    every thread returns a value, under any schedule. *)
Lemma pool_run_healthy sched jobs s :
  Forall (fun j => healthy (job_task j) /\ always_returns call (job_func j)) jobs ->
  Forall (fun th => th_ok th = true) (fst (pool_run call sched jobs s)).
Proof.
  revert jobs s. induction sched as [|k sched IH]; simpl; intros jobs s Hp.
  - by apply pool_drain_healthy.
  - destruct (jobs !! k) as [j|] eqn:Hk; [|by apply IH].
    assert (healthy (job_task j) /\ always_returns call (job_func j)) as [Hh Hr].
    { rewrite Forall_forall in Hp. apply Hp. by eapply list_elem_of_lookup_2. }
    pose proof (task_step_healthy j s Hh Hr) as Hh'.
    destruct (task_step call j s) as [t s1]. apply IH.
    apply Forall_insert; done.
Qed.

(** ** The choreography *)

Lemma action_jobs_lookup self i :
  action_jobs self !! i =
    (fun t => Job i 0 (fn_name (func (op_first t))) (op_first t)
                  (initial_task self)) <$> __operations self !! i.
Proof. unfold action_jobs. by rewrite list_lookup_imap. Qed.

Lemma action_jobs_retry self :
  Forall (fun j => job_task j <> Plain) (action_jobs self).
Proof.
  apply Forall_lookup. intros i j Hj. rewrite action_jobs_lookup in Hj.
  destruct (__operations self !! i); inversion Hj; subst. simpl.
  unfold initial_task. by destruct (range_len _).
Qed.

Lemma action_jobs_index self :
  map job_index (action_jobs self) = seq 0 (length (__operations self)).
Proof.
  apply list_eq. intros i. change (map job_index) with (fmap (M:=list) job_index).
  rewrite list_lookup_fmap, action_jobs_lookup.
  destruct (__operations self !! i) as [t|] eqn:E; simpl.
  - symmetry. apply lookup_seq. split; [done|]. by eapply lookup_lt_Some.
  - symmetry. apply lookup_seq_ge. by apply lookup_ge_None.
Qed.

(** The threads of the actions come back in the order of declaration:
    the thread at position i is that of operation i and carries the
    name of its action. *)
Lemma action_threads self sched s threads s' :
  pool_run call sched (action_jobs self) s = (threads, s') ->
  length threads = length (__operations self) /\
  forall i th, threads !! i = Some th ->
    function_index th = i /\
    exists t, __operations self !! i = Some t /\
              function_name th = fn_name (func (op_first t)).
Proof.
  intros H. apply pool_run_meta in H.
  change (fmap (M:=list) thread_meta threads
          = fmap (M:=list) job_meta (action_jobs self)) in H.
  split.
  - apply (f_equal length) in H. rewrite !length_fmap in H.
    unfold action_jobs in H. by rewrite length_imap in H.
  - intros i th Hth.
    apply (f_equal (fun l => l !! i)) in H.
    rewrite !list_lookup_fmap, Hth, action_jobs_lookup in H.
    destruct (__operations self !! i) as [t|]; [|done].
    simpl in H. inversion H. eauto.
Qed.

Lemma thread_ok_app_l l1 l2 i :
  i < length l1 -> thread_ok (l1 ++ l2) i = thread_ok l1 i.
Proof. intros H. unfold thread_ok. by rewrite lookup_app_l. Qed.

(** The indices [__prepare_thread_result] collects as succeeded. *)
Lemma success_index_spec threads :
  (forall i th, threads !! i = Some th -> function_index th = i) ->
  map function_index (List.filter th_ok threads) =
    List.filter (thread_ok threads) (seq 0 (length threads)).
Proof.
  induction threads as [|th threads IH] using rev_ind; intros H; [done|].
  rewrite length_app, seq_app, !List.filter_app, map_app. simpl.
  f_equal.
  - rewrite IH.
    + apply List.filter_ext_in. intros i Hi. apply in_seq in Hi.
      symmetry. apply thread_ok_app_l. lia.
    + intros i x Hx. apply H. by apply lookup_app_l_Some.
  - assert (thread_ok (threads ++ [th]) (length threads) = th_ok th) as ->.
    { unfold thread_ok. by rewrite list_lookup_middle. }
    destruct (th_ok th); [|done]. simpl. f_equal.
    apply H. by rewrite list_lookup_middle.
Qed.

Lemma compensation_threads_spec self success_index :
  Forall (fun i => i < length (__operations self)) success_index ->
  exists jobs,
    compensation_threads self success_index = (jobs, None) /\
    map job_index jobs =
      List.filter (has_compensation self) success_index /\
    Forall (fun j => job_task j = Plain /\ job_pos j = 1 /\
              exists a, __operations self !! job_index j
                        = Some (Op2 a (job_func j))) jobs.
Proof.
  induction success_index as [|i idxs IH]; simpl; intros Hin.
  - by exists [].
  - apply Forall_cons in Hin as [Hi Hin].
    destruct (IH Hin) as (jobs & E & Hidx & Hjobs).
    destruct (lookup_lt_is_Some_2 _ _ Hi) as [t Ht].
    unfold has_compensation at 1. rewrite Ht, E.
    destruct t as [a|a c]; simpl.
    + by exists jobs.
    + eexists. split; [done|]. simpl. rewrite Hidx.
      split; [done|]. constructor; [|done]. simpl. eauto.
Qed.

Lemma collect_spec threads ok errs :
  collect threads ok errs =
    (ok ++ omap th_value threads, errs ++ omap th_message threads).
Proof.
  revert ok errs. induction threads as [|th threads IH]; simpl; intros.
  - by rewrite !app_nil_r.
  - unfold th_value at 1, th_message at 1.
    destruct (function_result th); simpl; rewrite IH, <- ?app_assoc;
      reflexivity.
Qed.

Lemma plain_events_all jobs threads :
  Forall (fun j => job_task j = Plain) jobs ->
  length threads = length jobs ->
  map ev_key (plain_events jobs threads)
    = map (fun j => (job_index j, job_pos j)) jobs /\
  omap ev_value (plain_events jobs threads) = omap th_value threads /\
  omap ev_error (plain_events jobs threads) = omap th_message threads.
Proof.
  revert threads. induction jobs as [|j jobs IH]; intros [|th threads] Hp Hlen;
    try done.
  apply Forall_cons in Hp as [Hj Hp]. simpl in Hlen.
  destruct (IH threads Hp) as (K & V & E); [lia|].
  csimpl. rewrite Hj. csimpl. rewrite K, V, E.
  unfold ev_key, ev_value, ev_error, th_value, th_message. simpl.
  by destruct (function_result th).
Qed.

(** The compensation phase for succeeded indices within the registry:
    the jobs submitted are the compensations declared at those indices,
    each is invoked once, in some order, and the two results are the
    values and messages of the threads in the order of submission, or
    [None] where there is none. *)
Lemma choreography_compensation_log sched self success_index s res s' :
  Forall (fun i => i < length (__operations self)) success_index ->
  __execute_choreography_compensation call sched self success_index s
    = (res, s') ->
  exists jobs threads sw,
    compensation_threads self success_index = (jobs, None) /\
    res = inr (or_None (omap th_value threads),
               or_None (omap th_message threads)) /\
    log s' = log s ++ sw /\
    acc s' = acc s /\
    map ev_key sw ≡ₚ map (fun j => (job_index j, 1)) jobs /\
    omap ev_value sw ≡ₚ omap th_value threads /\
    omap ev_error sw ≡ₚ omap th_message threads.
Proof.
  intros Hin. unfold __execute_choreography_compensation.
  destruct (compensation_threads_spec _ _ Hin) as (jobs & -> & Hidx & Hjobs).
  destruct (pool_run call sched jobs s) as [threads s2] eqn:E.
  rewrite collect_spec. simpl. intros H. inversion H; subst. clear H.
  assert (length threads = length jobs) as Hlen.
  { apply pool_run_meta in E. apply (f_equal length) in E.
    by rewrite !length_map in E. }
  apply pool_run_plain in E as (sw & L & A & P & _).
  2: { eapply Forall_impl; [exact Hjobs|]. intros j (Hj & _). by left. }
  destruct (plain_events_all jobs threads) as (K & V & Er); [|done|].
  { eapply Forall_impl; [exact Hjobs|]. by intros j (Hj & _). }
  exists jobs, threads, sw. repeat split; try done.
  - change (map ev_key sw) with (ev_key <$> sw). rewrite P.
    change (ev_key <$> plain_events jobs threads)
      with (map ev_key (plain_events jobs threads)).
    rewrite K. clear -Hjobs.
    induction Hjobs as [|j jobs (_ & Hpos & _) _ IH]; [done|].
    simpl. by rewrite Hpos, IH.
  - by rewrite P, V.
  - by rewrite P, Er.
Qed.

Lemma omap_head {A B} (f : A -> option B) (l : list A) y ys :
  omap f l = y :: ys ->
  exists k x, l !! k = Some x /\ f x = Some y /\
    forall i z, i < k -> l !! i = Some z -> f z = None.
Proof.
  induction l as [|x l IH]; csimpl; [done|].
  destruct (f x) as [y'|] eqn:E.
  - intros H. inversion H; subst. exists 0, x. repeat split; [done|]. lia.
  - intros H. destruct (IH H) as (k & x' & Hk & Hx & Hlt).
    exists (S k), x'. repeat split; [done..|].
    intros [|i] z Hi Hz.
    + by inversion Hz; subst.
    + apply (Hlt i); [lia | done].
Qed.

Lemma success_index_lt self sched s threads s' :
  pool_run call sched (action_jobs self) s = (threads, s') ->
  map function_index (List.filter th_ok threads) =
    List.filter (thread_ok threads) (seq 0 (length (__operations self))) /\
  Forall (fun i => i < length (__operations self))
         (map function_index (List.filter th_ok threads)).
Proof.
  intros H. apply action_threads in H as [Hlen Hth].
  assert (map function_index (List.filter th_ok threads) =
          List.filter (thread_ok threads)
                      (seq 0 (length (__operations self)))) as E.
  { rewrite <- Hlen. apply success_index_spec. intros i th Hi.
    by apply Hth. }
  split; [done|]. rewrite E. apply Forall_forall. intros i Hi.
  apply list_elem_of_In, List.filter_In in Hi as [Hi _].
  apply in_seq in Hi. lia.
Qed.

Lemma choreography_execute_success sched comp_sched self w threads s1 :
  __operations self <> [] ->
  pool_run call sched (action_jobs self) (start self w) = (threads, s1) ->
  omap th_failure threads = [] ->
  choreography_execute call sched comp_sched self w
    = (inr (omap th_value threads), finish self s1, s1).
Proof.
  intros Hne H Hnil. unfold choreography_execute, __check_available_operations.
  destruct (__operations self) eqn:E; [done|].
  by rewrite H, prepare_thread_result_spec, Hnil.
Qed.

(** A concurrent run in which some action thread raised: the exception
    it raises, the compensation jobs it submits and what these leave in
    the log. *)
Lemma choreography_execute_failure sched comp_sched self w threads s1
      first rest :
  pool_run call sched (action_jobs self) (start self w) = (threads, s1) ->
  omap th_failure threads = first :: rest ->
  exists jobs cthreads s' sw,
    choreography_execute call sched comp_sched self w
      = (inl (RaiseSaga
                (mkSagaException (ErrExn (error first))
                                 (Some (error_name first))
                                 (or_None (omap th_value cthreads))
                                 (or_None (omap th_message cthreads)))),
         finish self s', s') /\
    compensation_threads self (map function_index (List.filter th_ok threads))
      = (jobs, None) /\
    log s' = log s1 ++ sw /\
    acc s' = acc s1 /\
    map ev_key sw ≡ₚ map (fun j => (job_index j, 1)) jobs /\
    omap ev_value sw ≡ₚ omap th_value cthreads /\
    omap ev_error sw ≡ₚ omap th_message cthreads.
Proof.
  intros H Hfail. unfold choreography_execute, __check_available_operations.
  destruct (success_index_lt _ _ _ _ _ H) as [_ Hlt].
  destruct (action_threads _ _ _ _ _ H) as [Hlen _].
  destruct (__operations self) as [|t ops] eqn:E.
  { destruct threads; [done|discriminate]. }
  rewrite H, prepare_thread_result_spec, Hfail. simpl.
  destruct (__execute_choreography_compensation call comp_sched self _ s1)
    as [res s'] eqn:Ec.
  apply choreography_compensation_log in Ec
      as (jobs & cthreads & sw & Ej & -> & L & A & K & V & Er).
  2: { by rewrite E. }
  by exists jobs, cthreads, s', sw.
Qed.

(** C10: in a concurrent run in which an action thread raised, the
    SagaException reports one failure, the one of the lowest index
    among the operations whose thread raised, whatever the schedule:
    its exception and the name of its action. *)
Theorem C10_lowest_failed_index sched comp_sched self w threads s1 k1 :
  pool_run call sched (action_jobs self) (start self w) = (threads, s1) ->
  k1 < length threads -> thread_ok threads k1 = false ->
  exists k th err t e self' s',
    threads !! k = Some th /\
    function_result th = inl err /\
    (forall i, i < k -> thread_ok threads i = true) /\
    __operations self !! k = Some t /\
    choreography_execute call sched comp_sched self w
      = (inl (RaiseSaga e), self', s') /\
    operation_error e = ErrExn err /\
    operation_name e = Some (fn_name (func (op_first t))).
Proof.
  intros H Hk1 Hbad.
  destruct (omap th_failure threads) as [|first rest] eqn:Hfail.
  { destruct (lookup_lt_is_Some_2 _ _ Hk1) as [th1 Hth1].
    unfold thread_ok in Hbad. rewrite Hth1 in Hbad.
    assert (th_failure th1 = None) as Hnone.
    { destruct (th_failure th1) as [x|] eqn:E; [|done].
      assert (x ∈ omap th_failure threads) as Hin.
      { apply list_elem_of_omap. exists th1. split; [|done].
        by eapply list_elem_of_lookup_2. }
      rewrite Hfail in Hin. by apply not_elem_of_nil in Hin. }
    unfold th_failure, th_ok in *. by destruct (function_result th1). }
  destruct (omap_head _ _ _ _ Hfail) as (k & th & Hth & Hf & Hlow).
  destruct (action_threads _ _ _ _ _ H) as [Hlen Hmeta].
  destruct (Hmeta _ _ Hth) as (Hidx & t & Ht & Hname).
  destruct (choreography_execute_failure sched comp_sched _ _ _ _ _ _ H Hfail)
    as (jobs & cthreads & s' & sw & Hrun & _).
  unfold th_failure in Hf.
  destruct (function_result th) as [err|v] eqn:Hres; [|done].
  inversion Hf; subst first.
  eexists k, th, err, t, _, _, _.
  repeat split; [done..| |done|exact Hrun| |]; simpl.
  - intros i Hi.
    destruct (lookup_lt_is_Some_2 threads i) as [th' Hth'].
    { apply lookup_lt_Some in Hth. lia. }
    specialize (Hlow i th' Hi Hth').
    unfold thread_ok. rewrite Hth'. unfold th_failure, th_ok in *.
    by destruct (function_result th').
  - done.
  - by rewrite Hname.
Qed.

Lemma pool_run_actions_log sched self w threads s1 :
  pool_run call sched (action_jobs self) (start self w) = (threads, s1) ->
  Forall (fun ev => ev_pos ev = 0) (log s1) /\
  forall i th v, threads !! i = Some th -> function_result th = inr v ->
    Call i 0 (inr v) ∈ log s1.
Proof.
  intros H.
  destruct (action_threads _ _ _ _ _ H) as [Hlen Hmeta].
  apply pool_run_retry in H as (evs & L & F & R);
    [|apply action_jobs_retry].
  simpl in L. rewrite L. split.
  - eapply Forall_impl; [exact F|]. by intros ev [? _].
  - intros i th v Hth Hv.
    apply Forall2_same_length_lookup in R as [_ R].
    destruct (Hmeta _ _ Hth) as (_ & t & Ht & _).
    pose proof (action_jobs_lookup self i) as Hj. rewrite Ht in Hj.
    destruct (R _ _ _ Hj Hth v Hv) as [[Hh|Hh]|Hin]; [| |done];
      simpl in Hh; unfold initial_task in Hh;
      destruct (range_len _); discriminate.
Qed.

(** C5: in a concurrent run in which an action thread raised, the
    compensation jobs submitted are, in ascending order of index, the
    compensations of the operations whose thread returned and that
    were declared with one; each of them is invoked once, and no
    compensation is invoked for an operation whose thread raised or
    that was declared without one. *)
Theorem C5_compensation_submitted sched comp_sched self w threads s1 exc :
  pool_run call sched (action_jobs self) (start self w) = (threads, s1) ->
  __prepare_thread_result threads = inl exc ->
  exists jobs e self' s' sw,
    compensation_threads self (success_results exc) = (jobs, None) /\
    map job_index jobs =
      List.filter (has_compensation self)
        (List.filter (thread_ok threads)
                     (seq 0 (length (__operations self)))) /\
    Forall (fun j => job_pos j = 1 /\
              exists a, __operations self !! job_index j
                        = Some (Op2 a (job_func j))) jobs /\
    choreography_execute call sched comp_sched self w
      = (inl (RaiseSaga e), self', s') /\
    log s' = log s1 ++ sw /\
    map ev_key sw ≡ₚ map (fun j => (job_index j, 1)) jobs /\
    Forall (fun ev => ev_pos ev = 1 ->
              thread_ok threads (ev_index ev) = true /\
              has_compensation self (ev_index ev) = true) (log s').
Proof.
  intros H Hprep. rewrite prepare_thread_result_spec in Hprep.
  destruct (omap th_failure threads) as [|first rest] eqn:Hfail; [done|].
  inversion Hprep; subst exc. clear Hprep. simpl.
  destruct (success_index_lt _ _ _ _ _ H) as [Hidx Hlt].
  destruct (pool_run_actions_log _ _ _ _ _ H) as [Hpos0 _].
  destruct (choreography_execute_failure sched comp_sched _ _ _ _ _ _ H Hfail)
    as (jobs & cthreads & s' & sw & Hrun & Ej & L & A & K & _).
  destruct (compensation_threads_spec _ _ Hlt) as (jobs' & Ej' & Hj1 & Hj2).
  rewrite Ej in Ej'. inversion Ej'; subst jobs'. clear Ej'.
  rewrite Hidx in Hj1.
  eexists jobs, _, _, s', sw.
  repeat split; [done|done| |exact Hrun|done|done|].
  - eapply Forall_impl; [exact Hj2|]. by intros j (_ & ? & ?).
  - rewrite L. apply Forall_app. split.
    + eapply Forall_impl; [exact Hpos0|]. intros ev -> ?. done.
    + apply Forall_forall. intros ev Hev _.
      assert (ev_key ev ∈ map ev_key sw) as Hin.
      { by apply list_elem_of_fmap_2. }
      rewrite K in Hin. apply list_elem_of_fmap in Hin as (j & Hkey & Hj).
      assert (ev_index ev ∈ map job_index jobs) as Hin.
      { unfold ev_key in Hkey. injection Hkey as -> _.
        by apply list_elem_of_fmap_2. }
      rewrite Hj1 in Hin.
      apply list_elem_of_In, List.filter_In in Hin as [Hin ->].
      by apply List.filter_In in Hin as [_ ->].
Qed.

(** ** The failure payload *)

Lemma or_None_nonempty {A} (l : list A) : or_None l <> Some [].
Proof. by destruct l. Qed.

Lemma all_ok_collected (sw : list event) :
  Forall (fun ev => ev_ok ev = true) sw ->
  length (omap ev_value sw) = length sw /\ omap ev_error sw = [].
Proof.
  induction 1 as [|ev sw Hev _ [IH1 IH2]]; [done|]. csimpl.
  unfold ev_ok, ev_value, ev_error in *.
  destruct (ev_result ev); [done|]. simpl. by rewrite IH1, IH2.
Qed.

Lemma aggregated_intro e sw outs msgs :
  compensation_success_result e = or_None outs ->
  compensation_errors e = or_None msgs ->
  outs ≡ₚ omap ev_value sw -> msgs ≡ₚ omap ev_error sw ->
  aggregated e sw.
Proof.
  intros Ho Hm Po Pm. split; [by exists outs, msgs|]. split.
  - intros ->. apply Permutation_nil_r in Po, Pm. by subst.
  - intros Hne Hok. destruct (all_ok_collected _ Hok) as [Hlen Hnil].
    rewrite Hnil in Pm. apply Permutation_nil_r in Pm. subst msgs.
    split; [done|]. exists outs.
    apply Permutation_length in Po. rewrite Hlen in Po.
    split; [|done]. rewrite Ho.
    destruct outs; [|done]. destruct sw; done.
Qed.



(** ** Successful runs *)

Lemma retry_loop_returns n error i func s :
  always_returns call func ->
  exists v s1, retry_loop call (S n) error i func s = (inr v, s1).
Proof.
  intros H. simpl. destruct (invoke_returns i 0 _ s H) as (v & s1 & ->).
  by eexists _, _.
Qed.

Lemma orchestrator_loop_returns self n ops i response s :
  range_len (__retry_attempts self) = inr (S n) ->
  Forall (fun t => always_returns call (op_first t)) ops ->
  exists out s', orchestrator_loop call self ops i response s = (inr out, s').
Proof.
  intros HR. revert i response s.
  induction ops as [|t ops IH]; simpl; intros i response s Hall.
  - by eexists _, _.
  - apply Forall_cons in Hall as [Ht Hall].
    unfold __retry_operation. rewrite HR.
    destruct (retry_loop_returns n None i _ s Ht) as (v & s1 & ->).
    by apply IH.
Qed.

Lemma no_failure_values threads :
  omap th_failure threads = [] ->
  length (omap th_value threads) = length threads /\
  forall i v, omap th_value threads !! i = Some v ->
    exists th, threads !! i = Some th /\ function_result th = inr v.
Proof.
  induction threads as [|th threads IH]; csimpl; [done|].
  assert (th_failure th = None -> exists v0, function_result th = inr v0
                                             /\ th_value th = Some v0) as Hth.
  { unfold th_failure, th_value. destruct (function_result th); [done|eauto]. }
  destruct (th_failure th); [done|].
  destruct Hth as (v0 & E & ->); [done|].
  intros H. destruct (IH H) as [IH1 IH2]. split; [simpl; by f_equal|].
  intros [|i] v Hv; simpl in *.
  - inversion Hv; subst. by exists th.
  - by apply IH2.
Qed.

Lemma all_ok_no_failure threads :
  Forall (fun th => th_ok th = true) threads -> omap th_failure threads = [].
Proof.
  induction 1 as [|th threads Hok _ IH]; [done|]. csimpl. rewrite IH.
  unfold th_failure, th_ok in *.
  by destruct (function_result th).
Qed.

(** C4: a sequential run that returns, returns one output for each
    declared operation, and the invocations that returned a value are,
    in this order, those of the actions 0, 1, ... with these outputs.
    A concurrent run that returns, under any schedule, returns one
    output for each declared operation, the output at position i being
    the value an invocation of the action of operation i returned.
    And both runs do return when at least one operation is declared,
    the retry count is positive and no action can raise. *)
Theorem C4_outputs_in_declaration_order sched comp_sched self w :
  (forall outs self' s',
     orchestrator_execute call self w = (inr outs, self', s') ->
     length outs = length (__operations self) /\
     List.filter ev_ok (log s') = imap (fun i v => Call i 0 (inr v)) outs) /\
  (forall outs self' s',
     choreography_execute call sched comp_sched self w
       = (inr outs, self', s') ->
     length outs = length (__operations self) /\
     forall i v, outs !! i = Some v -> Call i 0 (inr v) ∈ log s') /\
  (forall n,
     __operations self <> [] ->
     range_len (__retry_attempts self) = inr (S n) ->
     Forall (fun t => always_returns call (op_first t)) (__operations self) ->
     (exists outs self' s',
        orchestrator_execute call self w = (inr outs, self', s')) /\
     (exists outs self' s',
        choreography_execute call sched comp_sched self w
          = (inr outs, self', s'))).
Proof.
  split; [|split].
  - intros outs self' s' Hrun.
    destruct (__operations self) as [|t0 ops0] eqn:Hops.
    { unfold orchestrator_execute, __check_available_operations in Hrun.
      by rewrite Hops in Hrun. }
    rewrite <- Hops in *.
    destruct (orchestrator_loop call self (__operations self) 0 []
                                (start self w)) as [[f|out] s1] eqn:Hloop.
    { destruct (orchestrator_execute_failure _ _ _ _ Hloop)
        as (e & s2 & _ & Hrun').
      by rewrite Hrun' in Hrun. }
    rewrite (orchestrator_execute_success _ _ _ _ Hloop) in Hrun
      by by rewrite Hops.
    inversion Hrun; subst. clear Hrun.
    destruct (orchestrator_loop_log _ _ _ _ _ _ _ Hloop)
      as (evs & outs' & L & _ & _ & K & -> & Hlen).
    simpl in *. by rewrite L.
  - intros outs self' s' Hrun.
    destruct (__operations self) as [|t0 ops0] eqn:Hops.
    { unfold choreography_execute, __check_available_operations in Hrun.
      by rewrite Hops in Hrun. }
    rewrite <- Hops in *.
    destruct (pool_run call sched (action_jobs self) (start self w))
      as [threads s1] eqn:Hpool.
    destruct (omap th_failure threads) as [|first rest] eqn:Hfail.
    2: { destruct (choreography_execute_failure sched comp_sched _ _ _ _ _ _
                     Hpool Hfail) as (? & ? & ? & ? & Hrun' & _).
         by rewrite Hrun' in Hrun. }
    rewrite (choreography_execute_success sched comp_sched self w threads s1)
      in Hrun; [|by rewrite Hops|done..].
    inversion Hrun; subst. clear Hrun.
    destruct (no_failure_values _ Hfail) as [Hlen Hval].
    destruct (action_threads _ _ _ _ _ Hpool) as [Hlen' _].
    destruct (pool_run_actions_log _ _ _ _ _ Hpool) as [_ Hlog].
    split; [by rewrite Hlen|].
    intros i v Hv. destruct (Hval _ _ Hv) as (th & Hth & Hres).
    by eapply Hlog.
  - intros n Hne HR Hall. split.
    + destruct (orchestrator_loop_returns self n (__operations self) 0 []
                  (start self w) HR Hall) as (out & s' & Hloop).
      eexists _, _, _. by apply orchestrator_execute_success.
    + destruct (pool_run call sched (action_jobs self) (start self w))
        as [threads s1] eqn:Hpool.
      eexists _, _, _.
      apply (choreography_execute_success _ _ _ _ _ _ Hne Hpool).
      apply all_ok_no_failure.
      pose proof (pool_run_healthy sched (action_jobs self) (start self w))
        as Hh.
      rewrite Hpool in Hh. apply Hh.
      apply Forall_lookup. intros i j Hj.
      rewrite action_jobs_lookup in Hj.
      destruct (__operations self !! i) as [t|] eqn:Ht; inversion Hj; subst.
      simpl. unfold initial_task. rewrite HR. simpl. split; [lia|].
      rewrite Forall_forall in Hall. apply Hall.
      by eapply list_elem_of_lookup_2.
Qed.

(** ** Further properties of the runners *)

(** *** An empty registry *)

(** X1: with no operation declared, both runners raise the SagaException
    of [__check_available_operations] before anything else: nothing is
    invoked and the assembler is as it was. *)
Theorem empty_registry_raises sched comp_sched self w :
  __operations self = [] ->
  orchestrator_execute call self w
    = (inl (saga_error "Set operation first to execute the saga."),
       self, Exec (__saga_results self) w []) /\
  choreography_execute call sched comp_sched self w
    = (inl (saga_error "Set operation first to execute the saga."),
       self, Exec (__saga_results self) w []).
Proof.
  intros H.
  unfold orchestrator_execute, choreography_execute,
    __check_available_operations.
  by rewrite H.
Qed.

(** *** The retry executor, in general *)

Lemma retry_loop_bound n error i func s r s' :
  retry_loop call n error i func s = (r, s') ->
  exists evs,
    log s' = log s ++ evs /\
    length evs <= n /\
    match r with
    | inr v =>
        acc s' = acc s ++ [v] /\
        exists before,
          evs = before ++ [Call i 0 (inr v)] /\
          Forall (fun ev => ev_key ev = (i, 0) /\ ev_ok ev = false) before
    | inl e =>
        acc s' = acc s /\
        length evs = n /\
        Forall (fun ev => ev_key ev = (i, 0) /\ ev_ok ev = false) evs /\
        (evs = [] /\ e = raise_ error \/ last evs = Some (Call i 0 (inl e)))
    end.
Proof.
  revert error s. induction n as [|n IH]; simpl; intros error s H.
  - inversion H; subst. exists []. rewrite app_nil_r.
    repeat split; try done. by left.
  - destruct (invoke call i 0 func s) as [[err|v] s1] eqn:E;
      apply invoke_log in E as [E1 E2].
    + destruct (IH _ _ H) as (evs & L & Len & R).
      exists (Call i 0 (inl err) :: evs).
      rewrite L, E1, <- app_assoc. split; [done|]. split; [simpl; lia|].
      destruct r as [e|v].
      * destruct R as (A & Hn & F & Hl). rewrite A, E2.
        repeat split; [simpl; lia | by constructor |].
        right. destruct Hl as [[-> ->]|Hl]; [done|].
        destruct evs; [done|]. by rewrite last_cons_cons.
      * destruct R as (A & before & -> & F). rewrite A, E2.
        split; [done|]. exists (Call i 0 (inl err) :: before).
        split; [done|]. by constructor.
    + inversion H; subst. exists [Call i 0 (inr v)]. simpl.
      split; [done|]. split; [lia|]. split; [by rewrite E2|]. by exists [].
Qed.

(** X2: whatever the action does, the retry executor invokes it at most
    as often as [range(retry_attempts)] iterates and nothing else.  When
    it returns, the last invocation is the one that returned, every
    earlier one raised, and the value is appended to the accumulator.
    When it raises, every iteration invoked the action and each
    invocation raised, the accumulator is untouched, and the exception is
    that of the last invocation (the TypeError of [raise None] when
    there was no iteration). *)
Theorem retry_attempt_bound self i func s r s' n :
  range_len (__retry_attempts self) = inr n ->
  __retry_operation call self i func s = (r, s') ->
  exists evs,
    log s' = log s ++ evs /\
    length evs <= n /\
    match r with
    | inr v =>
        acc s' = acc s ++ [v] /\
        exists before,
          evs = before ++ [Call i 0 (inr v)] /\
          Forall (fun ev => ev_key ev = (i, 0) /\ ev_ok ev = false) before
    | inl e =>
        acc s' = acc s /\
        length evs = n /\
        Forall (fun ev => ev_key ev = (i, 0) /\ ev_ok ev = false) evs /\
        (evs = [] /\ e = raise_ None \/ last evs = Some (Call i 0 (inl e)))
    end.
Proof.
  unfold __retry_operation. intros ->. apply retry_loop_bound.
Qed.

(** *** A retry count that admits no attempt *)

Lemma pool_run_nil sched s : pool_run call sched [] s = ([], s).
Proof. induction sched as [|k sched IH]; [done|]. simpl. exact IH. Qed.

(** A pool in which every thread has already raised [e0], or is about
    to raise it without an attempt, invokes nothing. *)
Lemma pool_drain_dead e0 jobs s :
  Forall (fun j => job_task j = Done (inl e0) \/
                   (job_task j = Retrying 0 None /\ e0 = raise_ None)) jobs ->
  pool_drain call jobs s
    = (map (fun j => Thread (job_index j) (job_name j) (inl e0)) jobs, s).
Proof.
  induction 1 as [|j jobs Hj _ IH]; [done|]. simpl.
  unfold task_finish.
  destruct Hj as [->|[-> ->]]; simpl; by rewrite IH.
Qed.

Lemma pool_run_dead e0 sched jobs s :
  Forall (fun j => job_task j = Done (inl e0) \/
                   (job_task j = Retrying 0 None /\ e0 = raise_ None)) jobs ->
  pool_run call sched jobs s
    = (map (fun j => Thread (job_index j) (job_name j) (inl e0)) jobs, s).
Proof.
  revert jobs. induction sched as [|k sched IH]; simpl; intros jobs Hdead.
  - by apply pool_drain_dead.
  - destruct (jobs !! k) as [j|] eqn:Hk; [|by apply IH].
    assert (task_step call j s = (Done (inl e0), s)) as ->.
    { rewrite Forall_forall in Hdead.
      destruct (Hdead j) as [Hj|[Hj ->]];
        [by eapply list_elem_of_lookup_2 | |];
        unfold task_step; by rewrite Hj. }
    rewrite IH.
    + f_equal. by apply insert_set_task.
    + apply Forall_insert; [done|]. by left.
Qed.

(** X3: when [range(retry_attempts)] raises (a float) or is empty (a
    negative integer, which the constructor accepts), a run of either
    mode invokes no callable at all and raises a SagaException that
    names the first operation, carries the TypeError of the retry
    executor and has no compensation result. *)
Theorem unusable_retry_count sched comp_sched self w t ops e0 :
  __operations self = t :: ops ->
  (range_len (__retry_attempts self) = inl e0 \/
   (range_len (__retry_attempts self) = inr 0 /\ e0 = raise_ None)) ->
  orchestrator_execute call self w
    = (inl (RaiseSaga (mkSagaException
                         (ErrExn e0) (Some (fn_name (func (op_first t))))
                         None None)),
       finish self (start self w), start self w) /\
  choreography_execute call sched comp_sched self w
    = (inl (RaiseSaga (mkSagaException
                         (ErrExn e0) (Some (fn_name (func (op_first t))))
                         None None)),
       finish self (start self w), start self w).
Proof.
  intros Hops Hbad. split.
  - unfold orchestrator_execute, __check_available_operations.
    rewrite Hops. simpl. unfold __retry_operation.
    destruct Hbad as [->|[-> ->]]; reflexivity.
  - unfold choreography_execute, __check_available_operations.
    rewrite Hops.
    rewrite (pool_run_dead e0).
    2: { apply Forall_lookup. intros i j Hj. rewrite action_jobs_lookup in Hj.
         destruct (__operations self !! i); inversion Hj; subst. simpl.
         unfold initial_task. destruct Hbad as [->|[-> ->]]; eauto. }
    unfold action_jobs. rewrite Hops. rewrite imap_cons. simpl.
    rewrite prepare_thread_result_spec. csimpl.
    assert (forall l : list job,
              List.filter th_ok
                (map (fun j => Thread (job_index j) (job_name j) (inl e0)) l)
              = []) as Hnone.
    { induction l as [|j l IH]; [done|]. simpl. exact IH. }
    rewrite Hnone. simpl.
    unfold __execute_choreography_compensation. simpl.
    by rewrite pool_run_nil.
Qed.

(** *** The sequential runner *)

Lemma finish_self self (s : exec W) :
  finish self s = mkSaga (__retry_attempts self) (__operations self) (acc s).
Proof. done. Qed.

(** X4: a sequential run changes nothing of the assembler but the
    accumulator.  A run that returns has appended its outputs to it, in
    order.  A run that fails at index k has appended the outputs of the
    k actions before it, which are the values of the successful
    invocations so far, and the sweep leaves them there: the accumulator
    is not rolled back. *)
Theorem sequential_accumulator self w :
  (forall outs self' s',
     orchestrator_execute call self w = (inr outs, self', s') ->
     self' = mkSaga (__retry_attempts self) (__operations self)
                    (__saga_results self ++ outs)) /\
  (forall f s1,
     orchestrator_loop call self (__operations self) 0 [] (start self w)
       = (inl f, s1) ->
     exists e outs s',
       orchestrator_execute call self w
         = (inl (RaiseSaga e),
            mkSaga (__retry_attempts self) (__operations self)
                   (__saga_results self ++ outs), s') /\
       length outs = failed_at f /\
       List.filter ev_ok (log s1) = imap (fun i v => Call i 0 (inr v)) outs /\
       acc s1 = __saga_results self ++ outs /\
       acc s' = acc s1).
Proof.
  split.
  - intros outs self' s' Hrun.
    destruct (__operations self) as [|t0 ops0] eqn:Hops.
    { unfold orchestrator_execute, __check_available_operations in Hrun.
      by rewrite Hops in Hrun. }
    rewrite <- Hops in *.
    destruct (orchestrator_loop call self (__operations self) 0 []
                                (start self w)) as [[f|out] s1] eqn:Hloop.
    { destruct (orchestrator_execute_failure _ _ _ _ Hloop)
        as (e & s2 & _ & Hrun').
      by rewrite Hrun' in Hrun. }
    rewrite (orchestrator_execute_success _ _ _ _ Hloop) in Hrun
      by by rewrite Hops.
    inversion Hrun; subst. clear Hrun.
    destruct (orchestrator_loop_log _ _ _ _ _ _ _ Hloop)
      as (evs & outs' & _ & A & _ & _ & -> & _).
    rewrite finish_self, A. done.
  - intros f s1 Hloop.
    destruct (orchestrator_execute_failure _ _ _ _ Hloop)
      as (e & s' & Hh & Hrun).
    destruct (orchestrator_loop_log _ _ _ _ _ _ _ Hloop)
      as (evs & outs & L & A & _ & K & Hk & Hop & _).
    apply orchestrator_handler_log in Hh as (sw & _ & A' & _ & _).
    2: { apply lookup_lt_Some in Hop. lia. }
    exists e, outs, s'. simpl in *.
    rewrite Hrun, finish_self, A', A, L. repeat split; [lia | done].
Qed.

Lemma value_or_error (sw : list event) :
  length (omap ev_value sw) + length (omap ev_error sw) = length sw.
Proof.
  induction sw as [|ev sw IH]; [done|]. csimpl.
  unfold ev_value at 1, ev_error at 1.
  destruct (ev_result ev); simpl; lia.
Qed.

(** X5: in a sequential run that fails at index k, the sweep makes one
    invocation for each earlier index, that of the last callable of its
    tuple; the compensation outputs are the values returned, in the
    order of the sweep (k-1 first), the compensation errors are the
    [str] of the exceptions raised, in the same order; together they are
    k entries. *)
Theorem sequential_payload self w f s1 :
  orchestrator_loop call self (__operations self) 0 [] (start self w)
    = (inl f, s1) ->
  exists e self' s' sw,
    orchestrator_execute call self w = (inl (RaiseSaga e), self', s') /\
    log s' = log s1 ++ sw /\
    map ev_key sw
      = map (fun j => (j, last_pos self j)) (down_from (failed_at f)) /\
    compensation_success_result e = or_None (omap ev_value sw) /\
    compensation_errors e = or_None (omap ev_error sw) /\
    length (omap ev_value sw) + length (omap ev_error sw) = failed_at f.
Proof.
  intros Hloop.
  destruct (orchestrator_execute_failure _ _ _ _ Hloop)
    as (e & s' & Hh & Hrun).
  destruct (orchestrator_loop_log _ _ _ _ _ _ _ Hloop)
    as (evs & outs & _ & _ & _ & _ & Hk & Hop & _).
  apply orchestrator_handler_log in Hh as (sw & L & _ & K & ->).
  2: { apply lookup_lt_Some in Hop. lia. }
  eexists _, _, s', sw. split; [exact Hrun|]. repeat split; try done.
  rewrite value_or_error.
  apply (f_equal length) in K. rewrite !length_map in K.
  rewrite K. unfold down_from. by rewrite length_rev, length_seq.
Qed.

Lemma sorted_after_block i (l1 l2 : list nat) :
  Forall (fun x => x = i) l1 -> Forall (fun x => i <= x) l2 ->
  StronglySorted le l2 -> StronglySorted le (l1 ++ l2).
Proof.
  intros H1 H2 S2. induction H1 as [|x l1 -> Hl1 IH]; [done|]. simpl.
  constructor; [done|]. apply Forall_app. split; [|done].
  eapply Forall_impl; [exact Hl1|]. simpl. lia.
Qed.

Lemma orchestrator_loop_sorted self ops i response s r s' :
  orchestrator_loop call self ops i response s = (r, s') ->
  exists evs,
    log s' = log s ++ evs /\
    Forall (fun x => i <= x) (map ev_index evs) /\
    StronglySorted le (map ev_index evs).
Proof.
  revert i response s. induction ops as [|t ops IH]; simpl; intros i response s H.
  - inversion H; subst. exists []. rewrite app_nil_r. repeat constructor.
  - destruct (__retry_operation call self i (op_first t) s) as [[e|v] s1] eqn:E;
      apply retry_operation_log in E as (evs1 & L1 & F1 & _).
    + inversion H; subst. exists evs1. split; [done|].
      assert (Forall (fun x => x = i) (map ev_index evs1)) as Hall.
      { apply Forall_fmap. eapply Forall_impl; [exact F1|].
        intros ev Hk. unfold ev_key in Hk. by injection Hk. }
      split.
      * eapply Forall_impl; [exact Hall|]. simpl. lia.
      * rewrite <- (app_nil_r (map ev_index evs1)).
        apply (sorted_after_block i); [done|done|constructor].
    + destruct (IH _ _ _ H) as (evs & L & F & S).
      exists (evs1 ++ evs). rewrite L, L1, <- app_assoc. split; [done|].
      assert (Forall (fun x => x = i) (map ev_index evs1)) as Hall.
      { apply Forall_fmap. eapply Forall_impl; [exact F1|].
        intros ev Hk. unfold ev_key in Hk. by injection Hk. }
      rewrite map_app. split.
      * apply Forall_app. split.
        -- eapply Forall_impl; [exact Hall|]. simpl. lia.
        -- eapply Forall_impl; [exact F|]. simpl. lia.
      * apply (sorted_after_block i); [done| |done].
        eapply Forall_impl; [exact F|]. simpl. lia.
Qed.

(** X6: a sequential run invokes the actions strictly in the order of
    declaration.  In the log left by the loop of [orchestrator_execute],
    whether it ran to the end or stopped at a failure, there are only
    invocations of actions and their indices never decrease: every
    attempt of an action comes after all attempts of the actions
    declared before it.  A run that returns leaves exactly that log. *)
Theorem sequential_actions_in_order self w r s1 :
  orchestrator_loop call self (__operations self) 0 [] (start self w)
    = (r, s1) ->
  StronglySorted le (map ev_index (log s1)) /\
  Forall (fun ev => ev_pos ev = 0) (log s1) /\
  (forall outs self' s',
     orchestrator_execute call self w = (inr outs, self', s') -> s' = s1).
Proof.
  intros Hloop.
  destruct (orchestrator_loop_sorted _ _ _ _ _ _ _ Hloop) as (evs & L & _ & S).
  destruct (orchestrator_loop_log _ _ _ _ _ _ _ Hloop)
    as (evs' & outs' & L' & _ & F & _).
  simpl in L, L'. rewrite L. split; [done|]. split.
  - rewrite L in L'. subst evs'.
    eapply Forall_impl; [exact F|]. by intros ev [? _].
  - intros outs self' s' Hrun.
    unfold orchestrator_execute in Hrun.
    destruct (__check_available_operations self); [done|].
    rewrite Hloop in Hrun. destruct r as [f|out].
    + by destruct (orchestrator_handler call self f s1).
    + by inversion Hrun.
Qed.

(** *** The two modes compared *)

Lemma task_finish_initial self i name t s :
  task_finish call (Job i 0 name (op_first t) (initial_task self)) s
    = __retry_operation call self i (op_first t) s.
Proof.
  unfold task_finish, __retry_operation, initial_task. simpl.
  by destruct (range_len (__retry_attempts self)).
Qed.

(** A pool of one thread: the schedule does not matter. *)
Lemma pool_run_single sched j s :
  pool_run call sched [j] s
    = ([Thread (job_index j) (job_name j) (fst (task_finish call j s))],
       snd (task_finish call j s)).
Proof.
  revert j s. induction sched as [|k sched IH]; simpl; intros j s.
  - by destruct (task_finish call j s).
  - destruct k as [|k]; simpl; [|apply IH].
    destruct (task_step call j s) as [t s1] eqn:E.
    rewrite IH. by rewrite (task_step_finish _ _ _ _ E).
Qed.

(** X7: on a saga of one operation the two modes do the same, whatever
    the schedules: the same result or SagaException, the same assembler
    and the same invocations. *)
Theorem single_operation_modes_agree sched comp_sched self w t :
  __operations self = [t] ->
  choreography_execute call sched comp_sched self w
    = orchestrator_execute call self w.
Proof.
  intros Hops.
  unfold choreography_execute, orchestrator_execute,
    __check_available_operations, action_jobs.
  rewrite Hops. simpl.
  rewrite pool_run_single, task_finish_initial. simpl.
  destruct (__retry_operation call self 0 (op_first t) (start self w))
    as [[e|v] s1]; simpl.
  - unfold __prepare_thread_result, orchestrator_handler,
      __execute_orchestrator_compensation,
      __execute_choreography_compensation. simpl.
    by rewrite pool_run_nil.
  - done.
Qed.

Lemma pool_drain_sequential self ops i response s out s' :
  orchestrator_loop call self ops i response s = (inr out, s') ->
  exists threads,
    pool_drain call
      (imap (fun k t => Job (i + k) 0 (fn_name (func (op_first t)))
                            (op_first t) (initial_task self)) ops) s
      = (threads, s') /\
    omap th_failure threads = [] /\
    out = response ++ omap th_value threads.
Proof.
  revert i response s. induction ops as [|t ops IH]; simpl; intros i response s H.
  - inversion H; subst. exists []. by rewrite app_nil_r.
  - rewrite task_finish_initial, Nat.add_0_r.
    destruct (__retry_operation call self i (op_first t) s) as [[e|v] s1];
      [done|].
    destruct (IH _ _ _ H) as (threads & Hd & Hf & ->).
    rewrite (imap_ext _ (fun k t0 => Job (S i + k) 0
                                        (fn_name (func (op_first t0)))
                                        (op_first t0) (initial_task self))).
    2: { intros k x _. simpl. f_equal. lia. }
    rewrite Hd. eexists. split; [done|]. csimpl.
    split; [done|]. by rewrite <- app_assoc.
Qed.

(** X8: when a sequential run returns, the concurrent run whose action
    threads are completed one after the other by the barrier (the empty
    schedule) returns the same outputs, leaves the same assembler and
    makes the same invocations in the same order. *)
Theorem barrier_runs_sequentially comp_sched self w outs self' s' :
  orchestrator_execute call self w = (inr outs, self', s') ->
  choreography_execute call [] comp_sched self w = (inr outs, self', s').
Proof.
  intros Hrun.
  unfold orchestrator_execute in Hrun. unfold choreography_execute.
  destruct (__check_available_operations self); [done|].
  destruct (orchestrator_loop call self (__operations self) 0 []
                              (start self w)) as [[f|out] s1] eqn:Hloop.
  { by destruct (orchestrator_handler call self f s1). }
  inversion Hrun; subst. clear Hrun.
  destruct (pool_drain_sequential _ _ _ _ _ _ _ Hloop)
    as (threads & Hd & Hf & Hout).
  simpl in *. unfold action_jobs. rewrite Hd.
  by rewrite prepare_thread_result_spec, Hf, Hout.
Qed.

(** *** No cancellation in the concurrent runner *)

Lemma task_finish_log j s r s1 :
  task_finish call j s = (r, s1) ->
  exists evs, log s1 = log s ++ evs /\
    forall n e, job_task j = Retrying (S n) e ->
      exists r0, Call (job_index j) 0 r0 ∈ evs.
Proof.
  unfold task_finish.
  destruct (job_task j) as [[|n] error|v| |r0]; simpl; intros H.
  - inversion H; subst. exists []. by rewrite app_nil_r.
  - destruct (invoke call (job_index j) 0 (job_func j) s) as [r1 s2] eqn:E.
    apply invoke_log in E as [E1 _].
    assert (exists evs, log s1 = log s2 ++ evs) as [evs L].
    { destruct r1 as [err|v].
      - apply retry_loop_log in H as (evs & L & _). by exists evs.
      - inversion H; subst. exists []. by rewrite app_nil_r. }
    exists (Call (job_index j) 0 r1 :: evs).
    rewrite L, E1, <- app_assoc. split; [done|].
    intros _ _ _. exists r1. apply list_elem_of_here.
  - inversion H; subst. exists []. by rewrite app_nil_r.
  - apply invoke_log in H as [E1 _]. by eexists.
  - inversion H; subst. exists []. by rewrite app_nil_r.
Qed.

Lemma task_step_log j s t s1 :
  task_step call j s = (t, s1) ->
  exists evs, log s1 = log s ++ evs /\
    forall n e, job_task j = Retrying (S n) e ->
      exists r0, Call (job_index j) 0 r0 ∈ evs.
Proof.
  unfold task_step.
  destruct (job_task j) as [[|n] error|v| |r0]; simpl; intros H.
  - inversion H; subst. exists []. by rewrite app_nil_r.
  - destruct (invoke call (job_index j) 0 (job_func j) s) as [r1 s2] eqn:E.
    apply invoke_log in E as [E1 _].
    assert (s1 = s2) as -> by (destruct r1; by inversion H).
    eexists. split; [exact E1|].
    intros _ _ _. exists r1. apply list_elem_of_here.
  - inversion H; subst. exists []. by rewrite app_nil_r.
  - destruct (invoke call (job_index j) (job_pos j) (job_func j) s)
      as [r1 s2] eqn:E.
    apply invoke_log in E as [E1 _]. inversion H; subst. by eexists.
  - inversion H; subst. exists []. by rewrite app_nil_r.
Qed.

Lemma pool_drain_touch jobs s threads s' :
  pool_drain call jobs s = (threads, s') ->
  exists evs, log s' = log s ++ evs /\
    forall k j n e, jobs !! k = Some j -> job_task j = Retrying (S n) e ->
      exists r0, Call (job_index j) 0 r0 ∈ evs.
Proof.
  revert s threads. induction jobs as [|j0 jobs IH]; simpl; intros s threads H.
  - inversion H; subst. exists []. by rewrite app_nil_r.
  - destruct (task_finish call j0 s) as [r s1] eqn:E.
    destruct (pool_drain call jobs s1) as [ths s2] eqn:E2.
    inversion H; subst. clear H.
    apply task_finish_log in E as (evs1 & L1 & T1).
    destruct (IH _ _ E2) as (evs2 & L2 & T2).
    exists (evs1 ++ evs2). rewrite L2, L1, <- app_assoc. split; [done|].
    intros [|k] j n e Hj Ht; simpl in Hj.
    + inversion Hj; subst. destruct (T1 _ _ Ht) as [r0 Hin].
      exists r0. apply elem_of_app. by left.
    + destruct (T2 _ _ _ _ Hj Ht) as [r0 Hin].
      exists r0. apply elem_of_app. by right.
Qed.

(** Under any schedule, a thread that still has an attempt to make
    makes it before the pool is left. *)
Lemma pool_run_touch sched jobs s threads s' :
  pool_run call sched jobs s = (threads, s') ->
  exists evs, log s' = log s ++ evs /\
    forall k j n e, jobs !! k = Some j -> job_task j = Retrying (S n) e ->
      exists r0, Call (job_index j) 0 r0 ∈ evs.
Proof.
  revert jobs s. induction sched as [|k0 sched IH]; simpl; intros jobs s H.
  - by eapply pool_drain_touch.
  - destruct (jobs !! k0) as [j0|] eqn:Hk0; [|by apply IH].
    destruct (task_step call j0 s) as [t s1] eqn:E.
    apply task_step_log in E as (evs1 & L1 & T1).
    apply IH in H as (evs2 & L2 & T2).
    exists (evs1 ++ evs2). rewrite L2, L1, <- app_assoc. split; [done|].
    intros k j n e Hj Ht.
    destruct (decide (k = k0)) as [->|Hne].
    + rewrite Hk0 in Hj. inversion Hj; subst.
      destruct (T1 _ _ Ht) as [r0 Hin]. exists r0.
      apply elem_of_app. by left.
    + destruct (T2 k j n e) as [r0 Hin]; [|done|].
      { by rewrite list_lookup_insert_ne. }
      exists r0. apply elem_of_app. by right.
Qed.

(** X9: in a concurrent run with a positive retry count every declared
    action is invoked at least once, under any schedule and whichever
    actions fail: no thread is cancelled because another one raised. *)
Theorem concurrent_invokes_every_action sched comp_sched self w n i t :
  range_len (__retry_attempts self) = inr (S n) ->
  __operations self !! i = Some t ->
  exists r,
    Call i 0 r ∈ log (snd (choreography_execute call sched comp_sched self w)).
Proof.
  intros HR Ht.
  destruct (pool_run call sched (action_jobs self) (start self w))
    as [threads s1] eqn:Hpool.
  assert (exists r, Call i 0 r ∈ log s1) as [r Hin].
  { destruct (pool_run_touch _ _ _ _ _ Hpool) as (evs & L & T).
    pose proof (action_jobs_lookup self i) as Hj. rewrite Ht in Hj.
    destruct (T _ _ n None Hj) as [r0 Hin].
    { simpl. unfold initial_task. by rewrite HR. }
    exists r0. rewrite L. apply elem_of_app. by right. }
  exists r.
  assert (__operations self <> []) as Hne.
  { intros Hnil. by rewrite Hnil in Ht. }
  destruct (omap th_failure threads) as [|first rest] eqn:Hfail.
  - by rewrite (choreography_execute_success sched comp_sched self w threads s1).
  - destruct (choreography_execute_failure sched comp_sched _ _ _ _ _ _
                Hpool Hfail) as (jobs & cthreads & s' & sw & -> & _ & L & _).
    simpl. rewrite L. apply elem_of_app. by left.
Qed.

(** *** The partition of the threads *)

Lemma failed_index_spec threads :
  (forall i th, threads !! i = Some th -> function_index th = i) ->
  map error_index (omap th_failure threads) =
    List.filter (fun i => negb (thread_ok threads i)) (seq 0 (length threads)).
Proof.
  induction threads as [|th threads IH] using rev_ind; intros H; [done|].
  rewrite length_app, seq_app, List.filter_app, omap_app, map_app. simpl.
  f_equal.
  - rewrite IH.
    + apply List.filter_ext_in. intros i Hi. apply in_seq in Hi.
      rewrite thread_ok_app_l; [done | lia].
    + intros i x Hx. apply H. by apply lookup_app_l_Some.
  - assert (thread_ok (threads ++ [th]) (length threads) = th_ok th) as ->.
    { unfold thread_ok. by rewrite list_lookup_middle. }
    assert (function_index th = length threads) as Hidx.
    { apply H. by rewrite list_lookup_middle. }
    csimpl. unfold th_failure, th_ok.
    destruct (function_result th); simpl; by rewrite ?Hidx.
Qed.

(** X10: [__prepare_thread_result] partitions the threads of the actions
    by their outcome.  When none raised it returns their values, one for
    each thread, in the order of the threads.  Otherwise the exception it
    raises lists the indices of the threads that returned and those of
    the threads that raised, each in ascending order, and the second
    list is not empty. *)
Theorem prepare_partition threads :
  (forall i th, threads !! i = Some th -> function_index th = i) ->
  match __prepare_thread_result threads with
  | inr success =>
      success = omap th_value threads /\ length success = length threads
  | inl exc =>
      success_results exc =
        List.filter (thread_ok threads) (seq 0 (length threads)) /\
      map error_index (failed_results exc) =
        List.filter (fun i => negb (thread_ok threads i))
                    (seq 0 (length threads)) /\
      failed_results exc <> []
  end.
Proof.
  intros Hidx. rewrite prepare_thread_result_spec.
  pose proof (success_index_spec threads Hidx) as Hs.
  pose proof (failed_index_spec threads Hidx) as Hf.
  destruct (omap th_failure threads) as [|first rest] eqn:Hfail.
  - split; [done|]. by apply no_failure_values.
  - simpl. split; [exact Hs|]. split; [exact Hf | done].
Qed.

(** *** The accumulator under concurrency *)

Lemma settled_insert_same jobs k j j' :
  jobs !! k = Some j -> settled_value j = None -> settled_value j' = None ->
  settled (<[k := j']> jobs) = settled jobs.
Proof.
  unfold settled. revert k.
  induction jobs as [|j0 jobs IH]; intros [|k]; csimpl; try done.
  - intros Hj Hn Hn'. inversion Hj; subst. by rewrite Hn, Hn'.
  - intros Hj Hn Hn'. by rewrite (IH _ Hj Hn Hn').
Qed.

Lemma settled_insert_new jobs k j j' v :
  jobs !! k = Some j -> settled_value j = None -> settled_value j' = Some v ->
  settled (<[k := j']> jobs) ≡ₚ v :: settled jobs.
Proof.
  unfold settled. revert k.
  induction jobs as [|j0 jobs IH]; intros [|k]; csimpl; try done.
  - intros Hj Hn Hn'. inversion Hj; subst. by rewrite Hn, Hn'.
  - intros Hj Hn Hn'. specialize (IH _ Hj Hn Hn').
    destruct (settled_value j0); rewrite IH; [apply perm_swap | done].
Qed.

Lemma task_finish_acc j s r s1 :
  job_task j <> Plain ->
  task_finish call j s = (r, s1) ->
  exists added,
    acc s1 = acc s ++ added /\
    option_list (settled_value j) ++ added
      = option_list (match r with inr v => Some v | inl _ => None end).
Proof.
  unfold task_finish, settled_value. intros Hp.
  destruct (job_task j) as [n error|v| |r0]; [| |done|]; intros H.
  - apply retry_loop_log in H as (evs & _ & _ & R).
    destruct r as [e|v].
    + exists []. destruct R as [-> _]. by rewrite app_nil_r.
    + exists [v]. by destruct R as [-> _].
  - inversion H; subst. by exists [v].
  - inversion H; subst. exists []. rewrite !app_nil_r. by destruct r.
Qed.

Lemma pool_drain_acc jobs s threads s' :
  Forall (fun j => job_task j <> Plain) jobs ->
  pool_drain call jobs s = (threads, s') ->
  exists added,
    acc s' = acc s ++ added /\
    settled jobs ++ added ≡ₚ omap th_value threads.
Proof.
  revert s threads.
  induction jobs as [|j jobs IH]; simpl; intros s threads Hp H.
  - inversion H; subst. exists []. by rewrite app_nil_r.
  - apply Forall_cons in Hp as [Hj Hp].
    destruct (task_finish call j s) as [r s1] eqn:E.
    destruct (pool_drain call jobs s1) as [ths s2] eqn:E2.
    inversion H; subst. clear H.
    apply task_finish_acc in E as (a1 & A1 & V1); [|done].
    destruct (IH _ _ Hp E2) as (a2 & A2 & V2).
    exists (a1 ++ a2). rewrite A2, A1, <- app_assoc. split; [done|].
    unfold settled. csimpl. unfold th_value at 1. simpl.
    change (omap settled_value jobs) with (settled jobs).
    transitivity ((option_list (settled_value j) ++ a1) ++ (settled jobs ++ a2)).
    { destruct (settled_value j); simpl.
      - apply perm_skip. rewrite !app_assoc. apply Permutation_app_tail.
        apply Permutation_app_comm.
      - rewrite !app_assoc. apply Permutation_app_tail.
        apply Permutation_app_comm. }
    rewrite V1, V2. by destruct r.
Qed.

Lemma task_step_acc j s t s1 :
  job_task j <> Plain ->
  task_step call j s = (t, s1) ->
  (acc s1 = acc s /\ settled_value j = settled_value (set_task j t)) \/
  (exists v, acc s1 = acc s ++ [v] /\ settled_value j = None /\
             settled_value (set_task j t) = Some v).
Proof.
  unfold task_step, settled_value. intros Hp.
  destruct (job_task j) as [[|n] error|v| |r0]; [| | |done|]; simpl.
  - intros H. inversion H; subst. by left.
  - destruct (invoke call (job_index j) 0 (job_func j) s) as [[e|v] s2] eqn:E;
      apply invoke_log in E as [_ E2]; intros H; inversion H; subst; by left.
  - intros H. inversion H; subst. right. by exists v.
  - intros H. inversion H; subst. by left.
Qed.

(** Under any schedule, what the action threads append to the
    accumulator is, in some order, what they return. *)
Lemma pool_run_acc sched jobs s threads s' :
  Forall (fun j => job_task j <> Plain) jobs ->
  pool_run call sched jobs s = (threads, s') ->
  exists added,
    acc s' = acc s ++ added /\
    settled jobs ++ added ≡ₚ omap th_value threads.
Proof.
  revert jobs s.
  induction sched as [|k sched IH]; simpl; intros jobs s Hp H.
  - by apply pool_drain_acc.
  - destruct (jobs !! k) as [j|] eqn:Hk; [|by apply IH].
    destruct (task_step call j s) as [t s1] eqn:E.
    assert (job_task j <> Plain) as Hj.
    { rewrite Forall_forall in Hp. apply Hp. by eapply list_elem_of_lookup_2. }
    pose proof (task_step_retry _ _ _ _ Hj E) as [Ht _].
    apply IH in H as (a2 & A2 & V2); [|by apply Forall_insert].
    destruct (task_step_acc _ _ _ _ Hj E) as [[A1 S1]|(v & A1 & S1 & S1')].
    + exists a2. rewrite A2, A1. split; [done|].
      rewrite <- V2. apply Permutation_app_tail.
      destruct (settled_value j) as [v|] eqn:Hv.
      * assert (set_task j t = j) as ->.
        { unfold settled_value in *. simpl in S1.
          destruct (job_task j) as [| | |[|]] eqn:Hjt; try done.
          destruct t as [| | |[|]]; try done.
          inversion Hv; inversion S1; subst. rewrite <- Hjt.
          apply set_task_same. }
        by rewrite list_insert_id.
      * by rewrite (settled_insert_same _ _ _ _ Hk Hv).
    + exists (v :: a2). rewrite A2, A1, <- app_assoc. split; [done|].
      rewrite <- V2, (settled_insert_new _ _ _ _ _ Hk S1 S1').
      simpl. symmetry. apply Permutation_middle.
Qed.

Lemma action_jobs_unsettled self : settled (action_jobs self) = [].
Proof.
  unfold settled, action_jobs.
  assert (forall (f : nat -> op -> job) (l : list op),
            (forall i t, settled_value (f i t) = None) ->
            omap settled_value (imap f l) = []) as Hgen.
  { intros f l. revert f. induction l as [|t l IH]; intros f Hf; [done|].
    rewrite imap_cons. csimpl. rewrite Hf. apply IH. intros i t'. apply Hf. }
  apply Hgen. intros i t. unfold settled_value. simpl.
  unfold initial_task. by destruct (range_len _).
Qed.

(** X11: a concurrent run changes nothing of the assembler but the
    accumulator, and appends to it exactly the values of the action
    threads that returned, in some order (that of completion), under any
    schedule; the compensation phase leaves it as it is. *)
Theorem concurrent_accumulator sched comp_sched self w threads s1 r self' s' :
  pool_run call sched (action_jobs self) (start self w) = (threads, s1) ->
  choreography_execute call sched comp_sched self w = (r, self', s') ->
  exists added,
    self' = mkSaga (__retry_attempts self) (__operations self)
                   (__saga_results self ++ added) /\
    added ≡ₚ omap th_value threads.
Proof.
  intros Hpool Hrun.
  destruct (pool_run_acc _ _ _ _ _ (action_jobs_retry self) Hpool)
    as (added & A & V).
  rewrite action_jobs_unsettled in V. simpl in A, V.
  destruct (__operations self) as [|t0 ops0] eqn:Hops.
  { unfold action_jobs in Hpool. rewrite Hops, pool_run_nil in Hpool.
    inversion Hpool; subst. clear Hpool.
    unfold choreography_execute, __check_available_operations in Hrun.
    rewrite Hops in Hrun. inversion Hrun; subst. clear Hrun.
    exists []. split; [|done]. rewrite app_nil_r.
    destruct self'; simpl in *. by subst. }
  rewrite <- Hops in *.
  exists added. split; [|done].
  destruct (omap th_failure threads) as [|first rest] eqn:Hfail.
  - rewrite (choreography_execute_success sched comp_sched self w threads s1)
      in Hrun; [|by rewrite Hops|done..].
    inversion Hrun; subst. by rewrite finish_self, A.
  - destruct (choreography_execute_failure sched comp_sched _ _ _ _ _ _
                Hpool Hfail) as (jobs & cthreads & s2 & sw & Hrun' & _ & _ & A' & _).
    rewrite Hrun' in Hrun. inversion Hrun; subst.
    by rewrite finish_self, A', A.
Qed.

(** *** The payload of a concurrent failure *)

Lemma plain_events_members jobs threads :
  Forall (fun j => job_task j = Plain /\ job_pos j = 1) jobs ->
  map function_index threads = map job_index jobs ->
  length (plain_events jobs threads) = length threads /\
  Forall (fun th => Call (function_index th) 1 (function_result th)
                      ∈ plain_events jobs threads) threads.
Proof.
  revert threads. induction jobs as [|j jobs IH]; intros [|th threads] Hp Hm;
    try done.
  apply Forall_cons in Hp as [[Hj Hpos] Hp].
  simpl in Hm. injection Hm as Hi Hm.
  destruct (IH threads Hp Hm) as [Hlen Hall].
  simpl. rewrite Hj. simpl. split; [by rewrite Hlen|].
  constructor.
  - rewrite Hi, Hpos. apply list_elem_of_here.
  - eapply Forall_impl; [exact Hall|]. intros th' Hin.
    by apply list_elem_of_further.
Qed.

Lemma choreography_compensation_threads sched self success_index s res s' :
  Forall (fun i => i < length (__operations self)) success_index ->
  __execute_choreography_compensation call sched self success_index s
    = (res, s') ->
  exists threads sw,
    res = inr (or_None (omap th_value threads),
               or_None (omap th_message threads)) /\
    log s' = log s ++ sw /\
    map function_index threads
      = List.filter (has_compensation self) success_index /\
    length sw = length threads /\
    Forall (fun th => Call (function_index th) 1 (function_result th) ∈ sw)
           threads.
Proof.
  intros Hin. unfold __execute_choreography_compensation.
  destruct (compensation_threads_spec _ _ Hin) as (jobs & -> & Hidx & Hjobs).
  destruct (pool_run call sched jobs s) as [threads s2] eqn:E.
  rewrite collect_spec. simpl. intros H. inversion H; subst. clear H.
  assert (map function_index threads = map job_index jobs) as Hm.
  { apply pool_run_meta in E.
    apply (f_equal (map fst)) in E. by rewrite !map_map in E. }
  apply pool_run_plain in E as (sw & L & _ & P & _).
  2: { eapply Forall_impl; [exact Hjobs|]. intros j (Hj & _). by left. }
  destruct (plain_events_members jobs threads) as [Hlen Hall]; [|done|].
  { eapply Forall_impl; [exact Hjobs|]. by intros j (? & ? & _). }
  exists threads, sw. repeat split; try done.
  - by rewrite Hm.
  - by rewrite P.
  - eapply Forall_impl; [exact Hall|]. intros th Hth. by rewrite P.
Qed.

(** X12: in a concurrent run in which an action thread raised, the
    compensation outputs and errors of the SagaException are read from
    the compensation threads in the order of submission, that is by
    ascending index of the operations compensated, whatever the schedule:
    the outputs are the values of the threads that returned, the errors
    the [str] of the exceptions of those that raised, and each thread
    holds the result of the one invocation of its compensation. *)
Theorem concurrent_payload sched comp_sched self w threads s1 exc :
  pool_run call sched (action_jobs self) (start self w) = (threads, s1) ->
  __prepare_thread_result threads = inl exc ->
  exists cthreads e self' s' sw,
    choreography_execute call sched comp_sched self w
      = (inl (RaiseSaga e), self', s') /\
    log s' = log s1 ++ sw /\
    map function_index cthreads =
      List.filter (has_compensation self)
        (List.filter (thread_ok threads)
                     (seq 0 (length (__operations self)))) /\
    compensation_success_result e = or_None (omap th_value cthreads) /\
    compensation_errors e = or_None (omap th_message cthreads) /\
    length sw = length cthreads /\
    Forall (fun th => Call (function_index th) 1 (function_result th) ∈ sw)
           cthreads.
Proof.
  intros H Hprep.
  pose proof Hprep as Hprep'. rewrite prepare_thread_result_spec in Hprep'.
  destruct (omap th_failure threads) as [|first rest] eqn:Hfail; [done|].
  inversion Hprep'; subst exc. clear Hprep'.
  destruct (success_index_lt _ _ _ _ _ H) as [Hidx Hlt].
  destruct (action_threads _ _ _ _ _ H) as [Hlen _].
  unfold choreography_execute, __check_available_operations.
  destruct (__operations self) as [|t ops] eqn:E.
  { destruct threads; [done|discriminate]. }
  rewrite H, Hprep. simpl.
  destruct (__execute_choreography_compensation call comp_sched self _ s1)
    as [res s'] eqn:Ec.
  apply choreography_compensation_threads in Ec
      as (cthreads & sw & -> & L & Hm & Hl & Hall).
  2: { by rewrite E. }
  rewrite Hidx in Hm.
  eexists cthreads, _, _, s', sw. by repeat split.
Qed.

(** *** The retry count under concurrency *)

Lemma invocations_app i evs1 evs2 :
  invocations i (evs1 ++ evs2) = invocations i evs1 + invocations i evs2.
Proof. unfold invocations. by rewrite List.filter_app, length_app. Qed.

Lemma invocations_own i j (evs : list event) :
  Forall (fun ev => ev_index ev = j) evs ->
  invocations i evs = if Nat.eqb j i then length evs else 0.
Proof.
  unfold invocations. induction 1 as [|ev evs Hev _ IH]; simpl.
  - by destruct (Nat.eqb _ _).
  - rewrite Hev. destruct (Nat.eqb j i); simpl; by rewrite IH.
Qed.

Lemma task_step_budget j s t s1 :
  task_step call j s = (t, s1) ->
  exists evs,
    log s1 = log s ++ evs /\
    Forall (fun ev => ev_index ev = job_index j) evs /\
    length evs + attempts_left t <= attempts_left (job_task j).
Proof.
  unfold task_step.
  destruct (job_task j) as [[|n] error|v| |r0]; simpl; intros H.
  - inversion H; subst. exists []. by rewrite app_nil_r.
  - destruct (invoke call (job_index j) 0 (job_func j) s) as [r1 s2] eqn:E.
    apply invoke_log in E as [E1 _].
    exists [Call (job_index j) 0 r1].
    destruct r1; inversion H; subst; simpl;
      (split; [done|]); (split; [by repeat constructor | lia]).
  - inversion H; subst. exists []. by rewrite app_nil_r.
  - destruct (invoke call (job_index j) (job_pos j) (job_func j) s)
      as [r1 s2] eqn:E.
    apply invoke_log in E as [E1 _]. inversion H; subst.
    eexists. split; [exact E1|]. split; [by repeat constructor | simpl; lia].
  - inversion H; subst. exists []. by rewrite app_nil_r.
Qed.

Lemma task_finish_budget j s r s1 :
  task_finish call j s = (r, s1) ->
  exists evs,
    log s1 = log s ++ evs /\
    Forall (fun ev => ev_index ev = job_index j) evs /\
    length evs <= attempts_left (job_task j).
Proof.
  unfold task_finish.
  destruct (job_task j) as [n error|v| |r0]; simpl; intros H.
  - apply retry_loop_log in H as Hlog. destruct Hlog as (evs & L & F & _).
    apply retry_loop_bound in H as (evs' & L' & Hlen & _).
    rewrite L in L'. apply app_inv_head in L'. subst evs'.
    exists evs. repeat split; [done| |done].
    eapply Forall_impl; [exact F|]. intros ev Hk.
    unfold ev_key in Hk. by injection Hk.
  - inversion H; subst. exists []. rewrite app_nil_r. by repeat constructor.
  - apply invoke_log in H as [E1 _].
    eexists. split; [exact E1|]. split; [by repeat constructor | done].
  - inversion H; subst. exists []. rewrite app_nil_r. by repeat constructor.
Qed.

Lemma budget_insert i jobs k j t :
  jobs !! k = Some j ->
  attempts_left t <= attempts_left (job_task j) ->
  budget i (<[k := set_task j t]> jobs)
    + (if Nat.eqb (job_index j) i
       then attempts_left (job_task j) - attempts_left t else 0)
    = budget i jobs.
Proof.
  unfold budget. revert k.
  induction jobs as [|j0 jobs IH]; intros [|k] Hj Hle; simpl in *; try done.
  - inversion Hj; subst. destruct (Nat.eqb (job_index j) i); lia.
  - specialize (IH _ Hj Hle). lia.
Qed.

Lemma pool_drain_budget jobs s threads s' :
  pool_drain call jobs s = (threads, s') ->
  exists evs,
    log s' = log s ++ evs /\
    forall i, invocations i evs <= budget i jobs.
Proof.
  revert s threads. induction jobs as [|j jobs IH]; simpl; intros s threads H.
  - inversion H; subst. exists []. rewrite app_nil_r. split; [done|].
    intros i. unfold invocations, budget. simpl. lia.
  - destruct (task_finish call j s) as [r s1] eqn:E.
    destruct (pool_drain call jobs s1) as [ths s2] eqn:E2.
    inversion H; subst. clear H.
    apply task_finish_budget in E as (evs1 & L1 & F1 & B1).
    destruct (IH _ _ E2) as (evs2 & L2 & B2).
    exists (evs1 ++ evs2). rewrite L2, L1, <- app_assoc. split; [done|].
    intros i. rewrite invocations_app, (invocations_own _ _ _ F1).
    specialize (B2 i). unfold budget in *. simpl.
    destruct (Nat.eqb (job_index j) i); lia.
Qed.

(** Under any schedule a pool makes, for each operation, no more
    invocations than its threads have left. *)
Lemma pool_run_budget sched jobs s threads s' :
  pool_run call sched jobs s = (threads, s') ->
  exists evs,
    log s' = log s ++ evs /\
    forall i, invocations i evs <= budget i jobs.
Proof.
  revert jobs s. induction sched as [|k sched IH]; simpl; intros jobs s H.
  - by eapply pool_drain_budget.
  - destruct (jobs !! k) as [j|] eqn:Hk; [|by apply IH].
    destruct (task_step call j s) as [t s1] eqn:E.
    apply task_step_budget in E as (evs1 & L1 & F1 & B1).
    apply IH in H as (evs2 & L2 & B2).
    exists (evs1 ++ evs2). rewrite L2, L1, <- app_assoc. split; [done|].
    intros i. rewrite invocations_app, (invocations_own _ _ _ F1).
    specialize (B2 i).
    pose proof (budget_insert i jobs k j t Hk ltac:(lia)) as Hb.
    destruct (Nat.eqb (job_index j) i); lia.
Qed.

Lemma budget_absent i (g : nat -> op -> job) (ops : list op) :
  (forall k t, job_index (g k t) <> i) -> budget i (imap g ops) = 0.
Proof.
  unfold budget. revert g. induction ops as [|t ops IH]; intros g Hg; [done|].
  simpl. destruct (Nat.eqb (job_index (g 0 t)) i) eqn:Hx.
  - apply Nat.eqb_eq in Hx. by apply Hg in Hx.
  - simpl. apply IH. intros k t'. apply Hg.
Qed.

Lemma budget_indexed i n (f : nat -> op -> job) (ops : list op) a :
  (forall k t, job_index (f k t) = a + k) ->
  (forall k t, attempts_left (job_task (f k t)) <= n) ->
  budget i (imap f ops) <= n.
Proof.
  revert f a.
  induction ops as [|t ops IH]; intros f a Hidx Hleft.
  { unfold budget. simpl. lia. }
  rewrite imap_cons.
  change (budget i (f 0 t :: imap (f ∘ S) ops))
    with ((if Nat.eqb (job_index (f 0 t)) i
           then attempts_left (job_task (f 0 t)) else 0)
          + budget i (imap (f ∘ S) ops)).
  rewrite Hidx, Nat.add_0_r.
  destruct (Nat.eqb a i) eqn:Ha.
  - apply Nat.eqb_eq in Ha. subst a.
    rewrite budget_absent.
    + specialize (Hleft 0 t). lia.
    + intros k t'. simpl. rewrite Hidx. lia.
  - simpl. apply (IH (f ∘ S) (S a)).
    + intros k t'. simpl. rewrite Hidx. lia.
    + intros k t'. apply Hleft.
Qed.

Lemma action_invocations_le i (evs : list event) :
  length (List.filter (fun ev => Nat.eqb (ev_index ev) i
                                 && Nat.eqb (ev_pos ev) 0) evs)
    <= invocations i evs.
Proof.
  unfold invocations. induction evs as [|ev evs IH]; simpl; [done|].
  destruct (Nat.eqb (ev_index ev) i), (Nat.eqb (ev_pos ev) 0); simpl; lia.
Qed.

(** X13: in a concurrent run no action is invoked more often than
    [range(retry_attempts)] iterates, under any schedule and whatever
    the other threads do. *)
Theorem concurrent_attempt_bound sched comp_sched self w n i :
  range_len (__retry_attempts self) = inr n ->
  length (List.filter
            (fun ev => Nat.eqb (ev_index ev) i && Nat.eqb (ev_pos ev) 0)
            (log (snd (choreography_execute call sched comp_sched self w))))
    <= n.
Proof.
  intros HR.
  destruct (__operations self) as [|t0 ops0] eqn:Hops.
  { unfold choreography_execute, __check_available_operations.
    rewrite Hops. simpl. lia. }
  destruct (pool_run call sched (action_jobs self) (start self w))
    as [threads s1] eqn:Hpool.
  assert (length (List.filter
                    (fun ev => Nat.eqb (ev_index ev) i
                               && Nat.eqb (ev_pos ev) 0) (log s1)) <= n)
    as Hbound.
  { destruct (pool_run_budget _ _ _ _ _ Hpool) as (evs & L & B).
    simpl in L. rewrite L.
    etransitivity; [apply action_invocations_le|].
    etransitivity; [apply B|].
    apply (budget_indexed i n _ _ 0); [done|].
    intros k t. simpl. unfold initial_task. by rewrite HR. }
  destruct (omap th_failure threads) as [|first rest] eqn:Hfail.
  - rewrite (choreography_execute_success sched comp_sched self w threads s1);
      [done | by rewrite Hops | done..].
  - destruct (choreography_execute_failure sched comp_sched _ _ _ _ _ _
                Hpool Hfail) as (jobs & cthreads & s' & sw & -> & _ & L & _ & K & _).
    simpl. rewrite L, List.filter_app, length_app.
    assert (List.filter (fun ev => Nat.eqb (ev_index ev) i
                                   && Nat.eqb (ev_pos ev) 0) sw = []) as ->.
    { assert (Forall (fun ev => ev_pos ev = 1) sw) as Hpos.
      { apply Forall_forall. intros ev Hev.
        assert (ev_key ev ∈ map ev_key sw) as Hin
            by by apply list_elem_of_fmap_2.
        rewrite K in Hin. apply list_elem_of_fmap in Hin as (j & Hkey & _).
        unfold ev_key in Hkey. by injection Hkey. }
      clear -Hpos. induction Hpos as [|ev sw Hev _ IH]; [done|].
      simpl. rewrite Hev, andb_false_r. exact IH. }
    simpl. lia.
Qed.

End Properties.

(** ** The runs of the concrete sagas *)

(** The example of the specification, run sequentially: [ship] raises,
    and the compensations [release] and [credit] run in that order. *)
Example order_sequential :
  fst (fst (orchestrator_execute Demo.call Demo.order 0)) =
    inl (RaiseSaga
           (mkSagaException (ErrExn (Exn "RuntimeError" "out of stock"))
                            (Some "ship")
                            (Some [VStr "release"; VStr "credit"]) None)).
Proof. reflexivity. Qed.

(** The same saga run concurrently, [ship] first. *)
Example order_concurrent :
  fst (fst (choreography_execute Demo.call [2; 1; 0] [1; 0] Demo.order 0)) =
    inl (RaiseSaga
           (mkSagaException (ErrExn (Exn "RuntimeError" "out of stock"))
                            (Some "ship")
                            (Some [VStr "credit"; VStr "release"]) None)).
Proof. reflexivity. Qed.

(** C1: the code departs from it.  [reserve] and [ship] are declared
    without compensation and [ship] raises: the sweep invokes the action
    [reserve] a second time, as the third invocation of the run, and its
    value is reported as a compensation output. *)
Theorem C1_sweep_invokes_action :
  fst (fst (orchestrator_execute Demo.call Demo.stock 0)) =
    inl (RaiseSaga
           (mkSagaException (ErrExn (Exn "RuntimeError" "out of stock"))
                            (Some "ship") (Some [VStr "reserve"]) None)) /\
  log (snd (orchestrator_execute Demo.call Demo.stock 0)) =
    [Call 0 0 (inr (VStr "reserve"));
     Call 1 0 (inl (Exn "RuntimeError" "out of stock"));
     Call 0 0 (inr (VStr "reserve"))] /\
  has_compensation Demo.stock 0 = false.
Proof. repeat split. Qed.



Lemma C4_outputs_in_declaration_order_witness :
  (exists outs self' s',
     orchestrator_execute Demo.call Demo.calm 0 = (inr outs, self', s') /\
     length outs = 2 /\
     List.filter ev_ok (log s') = imap (fun i v => Call i 0 (inr v)) outs) /\
  (exists outs self' s',
     choreography_execute Demo.call [1; 0; 1] [] Demo.calm 0
       = (inr outs, self', s') /\
     length outs = 2 /\
     forall i v, outs !! i = Some v -> Call i 0 (inr v) ∈ log s').
Proof.
  destruct (C4_outputs_in_declaration_order nat Demo.call [1; 0; 1] []
              Demo.calm 0) as (Ho & Hc & Hret).
  destruct (Hret 0) as [(o1 & a1 & s1 & E1) (o2 & a2 & s2 & E2)].
  - discriminate.
  - reflexivity.
  - repeat constructor; intros acc w; reflexivity.
  - split.
    + exists o1, a1, s1. split; [exact E1|]. exact (Ho _ _ _ E1).
    + exists o2, a2, s2. split; [exact E2|]. exact (Hc _ _ _ E2).
Defined.

Lemma C5_compensation_submitted_witness :
  exists threads s1 exc,
    pool_run Demo.call [3; 3; 3; 1; 2; 2; 1; 1] (action_jobs Demo.late)
             (start Demo.late 0) = (threads, s1) /\
    __prepare_thread_result threads = inl exc /\
    exists jobs e self' s' sw,
      compensation_threads Demo.late (success_results exc) = (jobs, None) /\
      map job_index jobs =
        List.filter (has_compensation Demo.late)
          (List.filter (thread_ok threads)
                       (seq 0 (length (__operations Demo.late)))) /\
      Forall (fun j => job_pos j = 1 /\
                exists a, __operations Demo.late !! job_index j
                          = Some (Op2 a (job_func j))) jobs /\
      choreography_execute Demo.call [3; 3; 3; 1; 2; 2; 1; 1] [1; 0]
                           Demo.late 0
        = (inl (RaiseSaga e), self', s') /\
      log s' = log s1 ++ sw /\
      map ev_key sw ≡ₚ map (fun j => (job_index j, 1)) jobs /\
      Forall (fun ev => ev_pos ev = 1 ->
                thread_ok threads (ev_index ev) = true /\
                has_compensation Demo.late (ev_index ev) = true) (log s').
Proof.
  eexists _, _, _. split; [reflexivity|]. split; [reflexivity|].
  apply (C5_compensation_submitted nat Demo.call _ [1; 0] Demo.late 0);
    reflexivity.
Defined.




Lemma C10_lowest_failed_index_witness :
  exists threads s1,
    pool_run Demo.call [3; 3; 3; 1; 2; 2; 1; 1] (action_jobs Demo.late)
             (start Demo.late 0) = (threads, s1) /\
    3 < length threads /\ thread_ok threads 3 = false /\
    exists k th err t e self' s',
      threads !! k = Some th /\
      function_result th = inl err /\
      (forall i, i < k -> thread_ok threads i = true) /\
      __operations Demo.late !! k = Some t /\
      choreography_execute Demo.call [3; 3; 3; 1; 2; 2; 1; 1] [1; 0]
                           Demo.late 0
        = (inl (RaiseSaga e), self', s') /\
      operation_error e = ErrExn err /\
      operation_name e = Some (fn_name (func (op_first t))).
Proof.
  eexists _, _. split; [reflexivity|].
  split; [repeat constructor|]. split; [reflexivity|].
  eapply (C10_lowest_failed_index nat Demo.call _ [1; 0] Demo.late 0)
    with (k1 := 3); [reflexivity | repeat constructor | reflexivity].
Defined.

(** In that run the thread of index 3 is the first to fail in time, and
    the failure reported is that of index 1. *)
Example late_reports_ship :
  fst (fst (choreography_execute Demo.call [3; 3; 3; 1; 2; 2; 1; 1] [1; 0]
                                 Demo.late 0)) =
    inl (RaiseSaga
           (mkSagaException (ErrExn (Exn "RuntimeError" "out of stock"))
                            (Some "ship")
                            (Some [VStr "credit"; VStr "release"]) None)).
Proof. reflexivity. Qed.

(** ** Further properties of declaration *)

Lemma check_cases (arg : pyval) :
  (declarable arg = true /\ exists p, __check_operation arg = inr p) \/
  (declarable arg = false /\ empty_indexable arg = true /\
   exists e, __check_operation arg = inl (RaiseExn e) /\
             (e = Exn "IndexError" "list index out of range" \/
              e = Exn "IndexError" "string index out of range")) \/
  (declarable arg = false /\ empty_indexable arg = false /\
   __check_operation arg
     = inl (saga_error "Please add function in operation argument.")).
Proof.
  destruct arg as [| | | |[]|f| |[|[] items]]; simpl; eauto 10.
Qed.


(** ** The further properties on the concrete sagas *)

Lemma empty_registry_raises_witness :
  orchestrator_execute Demo.call (mkSaga (VInt 1) [] [VInt 7]) 0
    = (inl (saga_error "Set operation first to execute the saga."),
       mkSaga (VInt 1) [] [VInt 7], Exec [VInt 7] 0 []) /\
  choreography_execute Demo.call [0; 1] [0] (mkSaga (VInt 1) [] [VInt 7]) 0
    = (inl (saga_error "Set operation first to execute the saga."),
       mkSaga (VInt 1) [] [VInt 7], Exec [VInt 7] 0 []).
Proof.
  exact (empty_registry_raises nat Demo.call [0; 1] [0]
           (mkSaga (VInt 1) [] [VInt 7]) 0 eq_refl).
Defined.

Lemma retry_attempt_bound_witness :
  exists r s',
    __retry_operation Demo.call (mkSaga (VInt 5) [] []) 0
                      (Partial Demo.flaky [VInt 3]) (Exec [] 0 []) = (r, s') /\
    exists evs,
      log s' = [] ++ evs /\
      length evs <= 5 /\
      match r with
      | inr v =>
          acc s' = [] ++ [v] /\
          exists before,
            evs = before ++ [Call 0 0 (inr v)] /\
            Forall (fun ev => ev_key ev = (0, 0) /\ ev_ok ev = false) before
      | inl e =>
          acc s' = [] /\
          length evs = 5 /\
          Forall (fun ev => ev_key ev = (0, 0) /\ ev_ok ev = false) evs /\
          (evs = [] /\ e = raise_ None \/ last evs = Some (Call 0 0 (inl e)))
      end.
Proof.
  eexists _, _. split; [reflexivity|].
  apply (retry_attempt_bound nat Demo.call (mkSaga (VInt 5) [] []) 0
           (Partial Demo.flaky [VInt 3]) (Exec [] 0 [])); reflexivity.
Defined.

Lemma unusable_retry_count_witness :
  orchestrator_execute Demo.call
    (mkSaga (VInt (-2)) [Op2 (Demo.bare Demo.debit) (Demo.bare Demo.credit);
                         Op1 (Demo.bare Demo.ship)] []) 0
    = (inl (RaiseSaga
              (mkSagaException
                 (ErrExn (Exn "TypeError"
                              "exceptions must derive from BaseException"))
                 (Some "debit") None None)),
       mkSaga (VInt (-2)) [Op2 (Demo.bare Demo.debit) (Demo.bare Demo.credit);
                           Op1 (Demo.bare Demo.ship)] [],
       Exec [] 0 []) /\
  choreography_execute Demo.call [1; 0; 1] [0]
    (mkSaga (VInt (-2)) [Op2 (Demo.bare Demo.debit) (Demo.bare Demo.credit);
                         Op1 (Demo.bare Demo.ship)] []) 0
    = (inl (RaiseSaga
              (mkSagaException
                 (ErrExn (Exn "TypeError"
                              "exceptions must derive from BaseException"))
                 (Some "debit") None None)),
       mkSaga (VInt (-2)) [Op2 (Demo.bare Demo.debit) (Demo.bare Demo.credit);
                           Op1 (Demo.bare Demo.ship)] [],
       Exec [] 0 []).
Proof.
  exact (unusable_retry_count nat Demo.call [1; 0; 1] [0]
           (mkSaga (VInt (-2))
                   [Op2 (Demo.bare Demo.debit) (Demo.bare Demo.credit);
                    Op1 (Demo.bare Demo.ship)] []) 0
           _ _ _ eq_refl (or_intror (conj eq_refl eq_refl))).
Defined.

Lemma sequential_accumulator_witness :
  (exists outs self' s',
     orchestrator_execute Demo.call Demo.calm 0 = (inr outs, self', s') /\
     self' = mkSaga (__retry_attempts Demo.calm) (__operations Demo.calm)
                    (__saga_results Demo.calm ++ outs)) /\
  (exists f s1,
     orchestrator_loop Demo.call Demo.order (__operations Demo.order) 0 []
                       (start Demo.order 0) = (inl f, s1) /\
     exists e outs s',
       orchestrator_execute Demo.call Demo.order 0
         = (inl (RaiseSaga e),
            mkSaga (__retry_attempts Demo.order) (__operations Demo.order)
                   (__saga_results Demo.order ++ outs), s') /\
       length outs = failed_at f /\
       List.filter ev_ok (log s1) = imap (fun i v => Call i 0 (inr v)) outs /\
       acc s1 = __saga_results Demo.order ++ outs /\
       acc s' = acc s1).
Proof.
  split.
  - eexists _, _, _. split; [reflexivity|].
    eapply (proj1 (sequential_accumulator nat Demo.call Demo.calm 0)).
    reflexivity.
  - eexists _, _. split; [reflexivity|].
    apply (proj2 (sequential_accumulator nat Demo.call Demo.order 0)).
    reflexivity.
Defined.

Lemma sequential_payload_witness :
  exists f s1,
    orchestrator_loop Demo.call Demo.order (__operations Demo.order) 0 []
                      (start Demo.order 0) = (inl f, s1) /\
    exists e self' s' sw,
      orchestrator_execute Demo.call Demo.order 0
        = (inl (RaiseSaga e), self', s') /\
      log s' = log s1 ++ sw /\
      map ev_key sw
        = map (fun j => (j, last_pos Demo.order j)) (down_from (failed_at f)) /\
      compensation_success_result e = or_None (omap ev_value sw) /\
      compensation_errors e = or_None (omap ev_error sw) /\
      length (omap ev_value sw) + length (omap ev_error sw) = failed_at f.
Proof.
  eexists _, _. split; [reflexivity|].
  apply (sequential_payload nat Demo.call Demo.order 0). reflexivity.
Defined.

Lemma sequential_actions_in_order_witness :
  exists r s1,
    orchestrator_loop Demo.call Demo.order (__operations Demo.order) 0 []
                      (start Demo.order 0) = (r, s1) /\
    StronglySorted le (map ev_index (log s1)) /\
    Forall (fun ev => ev_pos ev = 0) (log s1) /\
    (forall outs self' s',
       orchestrator_execute Demo.call Demo.order 0 = (inr outs, self', s') ->
       s' = s1).
Proof.
  eexists _, _. split; [reflexivity|].
  eapply (sequential_actions_in_order nat Demo.call Demo.order 0). reflexivity.
Defined.

Lemma single_operation_modes_agree_witness :
  choreography_execute Demo.call [0; 3; 0] [1]
    (mkSaga (VInt 4) [Op2 (Partial Demo.flaky [VInt 3])
                          (Demo.bare Demo.credit)] []) 0
  = orchestrator_execute Demo.call
      (mkSaga (VInt 4) [Op2 (Partial Demo.flaky [VInt 3])
                            (Demo.bare Demo.credit)] []) 0.
Proof.
  exact (single_operation_modes_agree nat Demo.call [0; 3; 0] [1]
           (mkSaga (VInt 4) [Op2 (Partial Demo.flaky [VInt 3])
                                 (Demo.bare Demo.credit)] []) 0 _ eq_refl).
Defined.

Lemma barrier_runs_sequentially_witness :
  exists outs self' s',
    orchestrator_execute Demo.call Demo.calm 0 = (inr outs, self', s') /\
    choreography_execute Demo.call [] [2] Demo.calm 0 = (inr outs, self', s').
Proof.
  eexists _, _, _. split; [reflexivity|].
  apply (barrier_runs_sequentially nat Demo.call [2] Demo.calm 0).
  reflexivity.
Defined.

Lemma concurrent_invokes_every_action_witness :
  exists r,
    Call 3 0 r ∈ log (snd (choreography_execute Demo.call [1; 1] [0]
                                                Demo.late 0)).
Proof.
  exact (concurrent_invokes_every_action nat Demo.call [1; 1] [0] Demo.late 0
           1 3 _ eq_refl eq_refl).
Defined.

Lemma prepare_partition_witness :
  match __prepare_thread_result
          [Thread 0 "debit" (inr (VStr "debit"));
           Thread 1 "ship" (inl (Exn "RuntimeError" "out of stock"));
           Thread 2 "reserve" (inr (VStr "reserve"))] with
  | inr success => False
  | inl exc =>
      success_results exc = [0; 2] /\
      map error_index (failed_results exc) = [1] /\
      failed_results exc <> []
  end.
Proof.
  refine (prepare_partition
            [Thread 0 "debit" (inr (VStr "debit"));
             Thread 1 "ship" (inl (Exn "RuntimeError" "out of stock"));
             Thread 2 "reserve" (inr (VStr "reserve"))] _).
  intros [|[|[|i]]] th H; inversion H; reflexivity.
Defined.

Lemma concurrent_accumulator_witness :
  exists threads s1 r self' s',
    pool_run Demo.call [3; 3; 3; 1; 2; 2; 1; 1] (action_jobs Demo.late)
             (start Demo.late 0) = (threads, s1) /\
    choreography_execute Demo.call [3; 3; 3; 1; 2; 2; 1; 1] [1; 0]
                         Demo.late 0 = (r, self', s') /\
    exists added,
      self' = mkSaga (__retry_attempts Demo.late) (__operations Demo.late)
                     (__saga_results Demo.late ++ added) /\
      added ≡ₚ omap th_value threads.
Proof.
  eexists _, _, _, _, _. split; [reflexivity|]. split; [reflexivity|].
  eapply (concurrent_accumulator nat Demo.call [3; 3; 3; 1; 2; 2; 1; 1]
            [1; 0] Demo.late 0); reflexivity.
Defined.

Lemma concurrent_payload_witness :
  exists threads s1 exc,
    pool_run Demo.call [3; 3; 3; 1; 2; 2; 1; 1] (action_jobs Demo.late)
             (start Demo.late 0) = (threads, s1) /\
    __prepare_thread_result threads = inl exc /\
    exists cthreads e self' s' sw,
      choreography_execute Demo.call [3; 3; 3; 1; 2; 2; 1; 1] [1; 0]
                           Demo.late 0
        = (inl (RaiseSaga e), self', s') /\
      log s' = log s1 ++ sw /\
      map function_index cthreads =
        List.filter (has_compensation Demo.late)
          (List.filter (thread_ok threads)
                       (seq 0 (length (__operations Demo.late)))) /\
      compensation_success_result e = or_None (omap th_value cthreads) /\
      compensation_errors e = or_None (omap th_message cthreads) /\
      length sw = length cthreads /\
      Forall (fun th => Call (function_index th) 1 (function_result th) ∈ sw)
             cthreads.
Proof.
  eexists _, _, _. split; [reflexivity|]. split; [reflexivity|].
  eapply (concurrent_payload nat Demo.call [3; 3; 3; 1; 2; 2; 1; 1] [1; 0]
            Demo.late 0); reflexivity.
Defined.

Lemma concurrent_attempt_bound_witness :
  length (List.filter
            (fun ev => Nat.eqb (ev_index ev) 1 && Nat.eqb (ev_pos ev) 0)
            (log (snd (choreography_execute Demo.call
                         [3; 3; 3; 1; 2; 2; 1; 1] [1; 0] Demo.late 0))))
    <= 2.
Proof.
  exact (concurrent_attempt_bound nat Demo.call [3; 3; 3; 1; 2; 2; 1; 1]
           [1; 0] Demo.late 0 2 1 eq_refl).
Defined.

